(** * A decoding DSL over logit vectors: shallow embedding of [main.ipynb]

    The notebook defines three primitives over a one-dimensional numpy
    array of float64 logits ([sort_logits], [slice_logits],
    [threshold_logits]), a line splitter ([parse_dsl]) and an interpreter
    ([interpret_dsl]).  This file embeds them as Rocq functions and proves
    the properties stated about them.

    Modelling choices:
    - a float64 is a [spec_float] of the Standard Library (IEEE 754 data
      with signed zeros, infinities and one NaN); comparisons are
      [SFltb]/[SFleb], so a comparison with NaN is false, as in numpy;
    - a numpy vector is a [list spec_float];
    - a Python [str] is a [string]; its characters are read as the code
      points U+0000..U+00FF;
    - a raised Python exception is a value of [exn]; a function that can
      raise returns a [result];
    - [np.sort] orders floats by [<] with NaN after every number; the
      model sorts by insertion for that order;
    - [int] and [float] are the Python builtins on literals: [int] reads
      a signed run of decimal digits, [float] a decimal literal, [inf],
      [infinity] or [nan], rounded to the nearest binary64.  The
      interpreter's configurable limit on the number of digits of an
      [int] literal is not part of the model. *)

From Stdlib Require Import ZArith List String Ascii Bool Lia.
From Stdlib Require Import Permutation Sorted SpecFloat DecimalString DecimalNat.
Import ListNotations.

Local Open Scope string_scope.

(** ** Floating-point values *)

Definition float := spec_float.
Definition vector := list float.

(** [-np.inf] *)
Definition neg_inf : float := S754_infinity true.

Definition is_nan (x : float) : bool :=
  match x with S754_nan => true | _ => false end.

(** Zeros and normal or subnormal numbers: every value except NaN and the
    two infinities. *)
Definition is_finite (x : float) : bool :=
  match x with S754_zero _ | S754_finite _ _ _ => true | _ => false end.

(** The four element-wise comparisons of numpy on float64. *)
Definition flt (a b : float) : bool := SFltb a b.
Definition fle (a b : float) : bool := SFleb a b.
Definition fgt (a b : float) : bool := SFltb b a.
Definition fge (a b : float) : bool := SFleb b a.

Definition float_eq_dec (a b : float) : {a = b} + {a <> b}.
Proof.
  decide equality; auto using Bool.bool_dec, Pos.eq_dec, Z.eq_dec.
Defined.

(** ** Exceptions *)

Inductive exn : Type :=
| InvalidOrder (order : string)              (* ValueError of sort_logits *)
| InvalidSliceRange (n m : Z) (size : nat)   (* ValueError of slice_logits *)
| InvalidOperator (op : string)              (* ValueError of threshold_logits *)
| UnknownCommand (cmd : string)              (* ValueError of interpret_dsl *)
| UnpackError (pieces : nat)                 (* ValueError of [n, m = ...] *)
| IntLiteralError (s : string)               (* ValueError of int() *)
| FloatLiteralError (s : string)             (* ValueError of float() *)
| IndexError.                                (* parts[i] out of range *)

Inductive result (A : Type) : Type :=
| Ok (a : A)
| Raise (e : exn).
Arguments Ok {A} a.
Arguments Raise {A} e.

Definition bind {A B : Type} (r : result A) (k : A -> result B) : result B :=
  match r with
  | Ok a => k a
  | Raise e => Raise e
  end.

Notation "x <- r ;; k" := (bind r (fun x => k))
  (at level 61, r at next level, right associativity).

(** ** numpy helpers *)

(** The order [np.sort] uses on floats: [a < b], or [b] is NaN and [a] is
    not, so that NaN sorts after every number. *)
Definition np_lt (a b : float) : bool :=
  SFltb a b || (is_nan b && negb (is_nan a)).

Definition np_le (a b : float) : bool := negb (np_lt b a).

(** [np.sort] as a stable insertion sort.  The values of the result do
    not depend on the algorithm, except for the relative position of
    entries that compare equal ([0.0] and [-0.0]). *)
Fixpoint insert (x : float) (l : vector) : vector :=
  match l with
  | [] => [x]
  | y :: l' => if np_lt y x then y :: insert x l' else x :: l
  end.

Fixpoint np_sort (l : vector) : vector :=
  match l with
  | [] => []
  | x :: l' => insert x (np_sort l')
  end.

(** [np.where(cond, a, b)] for a boolean vector [cond], with [a] and [b]
    given position by position. *)
Fixpoint np_where (cond : list bool) (a b : vector) : vector :=
  match cond, a, b with
  | c :: cond', x :: a', y :: b' => (if c then x else y) :: np_where cond' a' b'
  | _, _, _ => []
  end.

(** The scalar [-np.inf] broadcast to [n] entries. *)
Definition full_neg_inf (n : nat) : vector := repeat neg_inf n.

(** [mask = np.zeros_like(logits, dtype=bool); mask[n:m] = True] for
    bounds with [0 <= n] and [m <= size]: entry [i] is set when
    [n <= i < m]. *)
Definition range_mask (size : nat) (n m : Z) : list bool :=
  map (fun i => ((n <=? Z.of_nat i) && (Z.of_nat i <? m))%Z) (seq 0 size).

(** ** The three primitives *)

Definition sort_logits (logits : vector) (order : string) : result vector :=
  if order =? "-" then Ok (rev (np_sort logits))
  else if order =? "+" then Ok (np_sort logits)
  else Raise (InvalidOrder order).

Definition slice_logits (logits : vector) (n m : option Z) : result vector :=
  let n := match n with None => 0%Z | Some n => n end in
  let m := match m with None => Z.of_nat (List.length logits) | Some m => m end in
  if ((n <? 0) || (m >? Z.of_nat (List.length logits)) || (n >=? m))%Z
  then Raise (InvalidSliceRange n m (List.length logits))
  else
    let mask := range_mask (List.length logits) n m in
    Ok (np_where mask logits (full_neg_inf (List.length logits))).

Definition threshold_logits (logits : vector) (op : string) (value : float)
  : result vector :=
  let mask cmp := map (fun v => cmp v value) logits in
  let neg := full_neg_inf (List.length logits) in
  if op =? "<" then Ok (np_where (mask flt) neg logits)
  else if op =? ">" then Ok (np_where (mask fgt) neg logits)
  else if op =? "<=" then Ok (np_where (mask fle) neg logits)
  else if op =? ">=" then Ok (np_where (mask fge) neg logits)
  else Raise (InvalidOperator op).

(** ** Python string methods *)

(** [str.isspace] on one character, for the code points below 256. *)
Definition isspace (c : ascii) : bool :=
  let n := nat_of_ascii c in
  ((9 <=? n) && (n <=? 13) || (28 <=? n) && (n <=? 32)
   || (n =? 133) || (n =? 160))%nat.

Fixpoint lstrip (s : string) : string :=
  match s with
  | String c s' => if isspace c then lstrip s' else s
  | EmptyString => EmptyString
  end.

Fixpoint rstrip (s : string) : string :=
  match s with
  | EmptyString => EmptyString
  | String c s' =>
      match rstrip s' with
      | EmptyString => if isspace c then EmptyString else String c EmptyString
      | r => String c r
      end
  end.

(** [s.strip()] *)
Definition strip (s : string) : string := rstrip (lstrip s).

(** [s.split(sep)] for a separator of one character. *)
Fixpoint split_on (sep : ascii) (s : string) : list string :=
  match s with
  | EmptyString => [EmptyString]
  | String c s' =>
      if Ascii.eqb c sep then EmptyString :: split_on sep s'
      else match split_on sep s' with
           | p :: ps => String c p :: ps
           | [] => [String c EmptyString]
           end
  end.

Definition push_field (field : string) (fields : list string) : list string :=
  match field with
  | EmptyString => fields
  | _ => field :: fields
  end.

(** The field that starts at the head of [s] (empty when [s] starts with
    whitespace) and the fields after it. *)
Fixpoint split_fields (s : string) : string * list string :=
  match s with
  | EmptyString => (EmptyString, [])
  | String c s' =>
      let (field, fields) := split_fields s' in
      if isspace c then (EmptyString, push_field field fields)
      else (String c field, fields)
  end.

(** [s.split()]: the maximal runs of non-whitespace characters. *)
Definition split_ws (s : string) : list string :=
  let (field, fields) := split_fields s in push_field field fields.

Definition newline : ascii := "010"%char.

(** ** Python literals: [int(s)] and [float(s)] *)

Definition digit_of (c : ascii) : option Z :=
  let n := nat_of_ascii c in
  if ((48 <=? n) && (n <=? 57))%nat then Some (Z.of_nat (n - 48)) else None.

Definition is_digit (c : ascii) : bool :=
  match digit_of c with Some _ => true | None => false end.

(** One or more decimal digits, with single underscores allowed between
    two digits. *)
Fixpoint digits_value (s : string) (acc : Z) (after_digit : bool) : option Z :=
  match s with
  | EmptyString => if after_digit then Some acc else None
  | String c s' =>
      match digit_of c with
      | Some d => digits_value s' (10 * acc + d)%Z true
      | None =>
          if Ascii.eqb c "_" && after_digit then digits_value s' acc false
          else None
      end
  end.

(** [int(s)] in base 10; [None] stands for the [ValueError]. *)
Definition py_int (s : string) : option Z :=
  match strip s with
  | String "-" r => option_map Z.opp (digits_value r 0%Z false)
  | String "+" r => digits_value r 0%Z false
  | r => digits_value r 0%Z false
  end.

(** Underscores of a float literal: each one stands between two digits;
    they are dropped before the literal is read. *)
Fixpoint drop_underscores (s : string) (after_digit after_underscore : bool)
  : option string :=
  match s with
  | EmptyString => if after_underscore then None else Some EmptyString
  | String c s' =>
      if Ascii.eqb c "_" then
        if after_digit then drop_underscores s' false true else None
      else if after_underscore && negb (is_digit c) then None
      else option_map (String c) (drop_underscores s' (is_digit c) false)
  end.

Definition split_sign (s : string) : bool * string :=
  match s with
  | String "-" r => (true, r)
  | String "+" r => (false, r)
  | _ => (false, s)
  end.

Definition lower (c : ascii) : ascii :=
  let n := nat_of_ascii c in
  if ((65 <=? n) && (n <=? 90))%nat then ascii_of_nat (n + 32) else c.

Fixpoint lowercase (s : string) : string :=
  match s with
  | EmptyString => EmptyString
  | String c s' => String (lower c) (lowercase s')
  end.

(** The leading digits of [s]: their value on top of [acc], how many
    there are, and what follows them. *)
Fixpoint scan_digits (s : string) (acc : Z) (count : nat) : Z * nat * string :=
  match s with
  | EmptyString => (acc, count, EmptyString)
  | String c s' =>
      match digit_of c with
      | Some d => scan_digits s' (10 * acc + d)%Z (S count)
      | None => (acc, count, s)
      end
  end.

(** The binary64 nearest to [m * 10^e] (ties to even), for [0 <= m];
    overflow gives an infinity and underflow a zero. *)
Definition round_decimal (neg : bool) (m e : Z) : float :=
  let prec := 53%Z in
  let emax := 1024%Z in
  if (m =? 0)%Z then S754_zero neg
  else if (0 <=? e)%Z then
    binary_normalize prec emax (if neg then - (m * 10 ^ e) else m * 10 ^ e)%Z 0%Z neg
  else
    let '(q, e', l) := SFdiv_core_binary prec emax m 0%Z (10 ^ (- e))%Z 0%Z in
    binary_round_aux prec emax neg q e' l.

(** A decimal literal without sign: digits with an optional fraction and
    an optional exponent; at least one digit before the exponent. *)
Definition decimal_literal (neg : bool) (s : string) : option float :=
  let '(mi, ci, r1) := scan_digits s 0%Z 0 in
  let '(m, cf, r2) :=
    match r1 with
    | String "." r => scan_digits r mi 0
    | _ => (mi, 0%nat, r1)
    end in
  if (ci + cf =? 0)%nat then None
  else
    match r2 with
    | EmptyString => Some (round_decimal neg m (- Z.of_nat cf))
    | String c r3 =>
        if Ascii.eqb (lower c) "e" then
          let (eneg, r4) := split_sign r3 in
          let '(ev, ce, r5) := scan_digits r4 0%Z 0 in
          match ce, r5 with
          | S _, EmptyString =>
              Some (round_decimal neg m ((if eneg then - ev else ev) - Z.of_nat cf))
          | _, _ => None
          end
        else None
    end.

(** [float(s)]; [None] stands for the [ValueError]. *)
Definition py_float (s : string) : option float :=
  match drop_underscores (strip s) false false with
  | None => None
  | Some t =>
      let (neg, body) := split_sign t in
      let low := lowercase body in
      if (low =? "inf") || (low =? "infinity") then Some (S754_infinity neg)
      else if low =? "nan" then Some S754_nan
      else decimal_literal neg body
  end.

(** ** The interpreter *)

(** [parse_dsl]: the stripped lines of the text that are not blank. *)
Definition parse_dsl (dsl_string : string) : list string :=
  map strip
    (filter (fun cmd => negb (strip cmd =? EmptyString)) (split_on newline dsl_string)).

Definition int_literal (s : string) : result Z :=
  match py_int s with
  | Some z => Ok z
  | None => Raise (IntLiteralError s)
  end.

Definition float_literal (s : string) : result float :=
  match py_float s with
  | Some x => Ok x
  | None => Raise (FloatLiteralError s)
  end.

(** [int(s) if s else None] *)
Definition optional_int (s : string) : result (option Z) :=
  match s with
  | EmptyString => Ok None
  | _ => z <- int_literal s ;; Ok (Some z)
  end.

(** One turn of the loop of [interpret_dsl], after [parts = command.split()]. *)
Definition exec_parts (logits : vector) (parts : list string) : result vector :=
  match parts with
  | [] => Raise IndexError
  | cmd :: args =>
      if cmd =? "sort" then
        let order := match args with order :: _ => order | [] => "-" end in
        sort_logits logits order
      else if cmd =? "slice" then
        match args with
        | [] => Raise IndexError
        | arg :: _ =>
            match split_on ":" arg with
            | [n; m] =>
                n <- optional_int n ;;
                m <- optional_int m ;;
                slice_logits logits n m
            | pieces => Raise (UnpackError (List.length pieces))
            end
        end
      else if cmd =? "threshold" then
        match args with
        | op :: value :: _ =>
            value <- float_literal value ;;
            threshold_logits logits op value
        | _ => Raise IndexError
        end
      else Raise (UnknownCommand cmd)
  end.

Definition exec_command (logits : vector) (command : string) : result vector :=
  exec_parts logits (split_ws command).

(** The [for] loop: the first exception ends the run. *)
Fixpoint run_commands (logits : vector) (commands : list string) : result vector :=
  match commands with
  | [] => Ok logits
  | command :: rest =>
      logits' <- exec_command logits command ;;
      run_commands logits' rest
  end.

Definition interpret_dsl (logits : vector) (dsl_string : string) : result vector :=
  run_commands logits (parse_dsl dsl_string).

(** ** The error classes of the specification

    [RangeError] is the exception of [slice_logits]; every other
    exception comes from reading a command line and is a [ParseError]. *)
Definition is_range_error (e : exn) : bool :=
  match e with InvalidSliceRange _ _ _ => true | _ => false end.

Definition is_parse_error (e : exn) : bool := negb (is_range_error e).

(** The logits of the notebook's demonstration and its two programs. *)
Definition f_0_1 : float := S754_finite false 7205759403792794 (-56).
Definition f_2_3 : float := S754_finite false 5179139571476070 (-51).
Definition f_1_1 : float := S754_finite false 4953959590107546 (-52).
Definition f_0_7 : float := S754_finite false 6305039478318694 (-53).
Definition f_m1_0 : float := S754_finite true 4503599627370496 (-52).
Definition f_1_0 : float := S754_finite false 4503599627370496 (-52).

Definition demo_logits : vector := [f_0_1; f_2_3; f_1_1; f_0_7; f_m1_0].

Definition nl : string := String newline EmptyString.

Definition top_3 : string := "sort" ++ nl ++ "slice :3".
Definition min_1 : string := "threshold < 1".

(** ** Vocabulary of the properties *)

(** Sorted for the order of [np.sort], smallest first or largest first. *)
Definition ascending (l : vector) : Prop :=
  StronglySorted (fun a b => np_le a b = true) l.

Definition descending (l : vector) : Prop :=
  StronglySorted (fun a b => np_le b a = true) l.

(** The four comparator tokens and what each one tests between an entry
    [v] and the threshold [p]. *)
Definition comparators : list string := ["<"; ">"; "<="; ">="].

Definition satisfies (op : string) (v p : float) : bool :=
  if op =? "<" then flt v p
  else if op =? ">" then fgt v p
  else if op =? "<=" then fle v p
  else if op =? ">=" then fge v p
  else false.

(** Entry by entry: overwritten with [-inf] where [cond] holds, kept
    elsewhere. *)
Definition mask_where (cond : float -> bool) (logits : vector) : vector :=
  map (fun v => if cond v then neg_inf else v) logits.

(** Position [i] lies in the half-open range from [n] to [m]. *)
Definition in_range (n m : Z) (i : nat) : bool :=
  ((n <=? Z.of_nat i) && (Z.of_nat i <? m))%Z.

Definition start_of (n : option Z) : Z :=
  match n with Some n => n | None => 0%Z end.

Definition stop_of (size : nat) (m : option Z) : Z :=
  match m with Some m => m | None => Z.of_nat size end.

Definition is_neg_inf (x : float) : bool :=
  match x with S754_infinity true => true | _ => false end.

(** The entries that are not masked, with their multiplicities. *)
Definition unmasked (l : vector) : vector :=
  filter (fun x => negb (is_neg_inf x)) l.

Definition sub_multiset (a b : vector) : Prop :=
  forall x, (count_occ float_eq_dec a x <= count_occ float_eq_dec b x)%nat.

(** What a step may do to a vector: keep its length, keep or drop
    unmasked values, never unmask. *)
Definition masks_more (before after : vector) : Prop :=
  List.length after = List.length before
  /\ sub_multiset (unmasked after) (unmasked before)
  /\ (count_occ float_eq_dec before neg_inf
      <= count_occ float_eq_dec after neg_inf)%nat.

Fixpoint all_space (s : string) : bool :=
  match s with
  | EmptyString => true
  | String c s' => isspace c && all_space s'
  end.

Fixpoint no_space (s : string) : bool :=
  match s with
  | EmptyString => true
  | String c s' => negb (isspace c) && no_space s'
  end.

(** A token: what [split] can return as one field. *)
Definition is_token (s : string) : bool :=
  match s with
  | EmptyString => false
  | _ => no_space s
  end.

(** A line that [parse_dsl] drops. *)
Definition blank (line : string) : bool := strip line =? EmptyString.

(** ["\n".join(lines)] *)
Fixpoint join_lines (lines : list string) : string :=
  match lines with
  | [] => EmptyString
  | [line] => line
  | line :: rest => line ++ nl ++ join_lines rest
  end.

(** [str(k)] for a natural number. *)
Definition str_of_nat (k : nat) : string :=
  NilEmpty.string_of_uint (Nat.to_uint k).

(** A command line is malformed when executing it raises a parse error
    whatever the vector is. *)
Definition malformed_with (e : exn) (line : string) : Prop :=
  is_parse_error e = true /\ forall logits, exec_command logits line = Raise e.

Definition malformed (line : string) : Prop := exists e, malformed_with e line.

(** The vector [slice_logits] returns for valid bounds. *)
Definition sliced (logits : vector) (n m : Z) : vector :=
  map (fun '(i, x) => if in_range n m i then x else neg_inf)
      (combine (seq 0 (List.length logits)) logits).

(** [c in s] *)
Fixpoint has_char (c : ascii) (s : string) : bool :=
  match s with
  | EmptyString => false
  | String c' s' => Ascii.eqb c' c || has_char c s'
  end.

(** Each entry is kept or overwritten with [-inf]. *)
Definition entrywise_masked (before after : vector) : Prop :=
  Forall2 (fun x y => y = x \/ y = neg_inf) before after.

(** Min-p retention as the specification words it: [threshold < p]
    leaves exactly the entries [v] with [v >= p] and masks the others. *)
Definition keeps_exactly_ge (logits : vector) (p : float) : Prop :=
  threshold_logits logits "<" p
  = Ok (map (fun v => if fge v p then v else neg_inf) logits).

Definition has_malformed_line (text : string) : Prop :=
  exists line, In line (parse_dsl text) /\ malformed line.

(** Eager parsing as the specification words it: a text with a
    malformed line always ends in a parse error. *)
Definition fails_with_parse_error (logits : vector) (text : string) : Prop :=
  exists e, interpret_dsl logits text = Raise e /\ is_parse_error e = true.

(** A float with the sign of a zero forgotten: [0.0] and [-0.0] are
    the only distinct floats that compare equal. *)
Definition unsigned_zero (x : float) : float :=
  match x with
  | S754_zero _ => S754_zero false
  | _ => x
  end.

(** Two outcomes that agree on whether the run fails, on the exception
    when it does and on the length of the result when it does not. *)
Definition same_outcome (r r' : result vector) : Prop :=
  match r, r' with
  | Ok out, Ok out' => List.length out = List.length out'
  | Raise e, Raise e' => e = e'
  | _, _ => False
  end.

(** [op in ("<", ">", "<=", ">=")] *)
Definition is_comparator (op : string) : bool :=
  existsb (String.eqb op) comparators.

(** [" ".join(fields)] *)
Fixpoint join_fields (fields : list string) : string :=
  match fields with
  | [] => EmptyString
  | [field] => field
  | field :: rest => field ++ String " " (join_fields rest)
  end.

(** ** The order of [np.sort] *)

Ltac cmp_cases :=
  repeat match goal with
  | |- context [Z.compare ?a ?b] => destruct (Z.compare_spec a b); subst
  | |- context [Pos.compare_cont Eq ?a ?b] =>
      change (Pos.compare_cont Eq a b) with (Pos.compare a b);
      destruct (Pos.compare_spec a b); subst
  | H : context [Z.compare ?a ?b] |- _ => destruct (Z.compare_spec a b); subst
  | H : context [Pos.compare_cont Eq ?a ?b] |- _ =>
      change (Pos.compare_cont Eq a b) with (Pos.compare a b) in H;
      destruct (Pos.compare_spec a b); subst
  end.

Lemma np_le_total a b : np_le a b = true \/ np_le b a = true.
Proof.
  unfold np_le, np_lt, SFltb.
  destruct a as [[]|[]| |[] ma ea], b as [[]|[]| |[] mb eb]; simpl; auto;
    cmp_cases; simpl; auto; lia.
Qed.

Lemma np_le_trans a b c :
  np_le a b = true -> np_le b c = true -> np_le a c = true.
Proof.
  unfold np_le, np_lt, SFltb.
  destruct a as [[]|[]| |[] ma ea], b as [[]|[]| |[] mb eb],
           c as [[]|[]| |[] mc ec];
    simpl; auto; try discriminate; intros H1 H2; cmp_cases; simpl in *;
    auto; try discriminate; try lia.
Qed.

Lemma np_lt_le a b : np_lt a b = true -> np_le a b = true.
Proof.
  intros H. destruct (np_le_total a b) as [Hab | Hba]; [exact Hab|].
  unfold np_le in Hba. rewrite H in Hba. discriminate.
Qed.

(** Between two numbers [np_le] is the IEEE comparison [<=]. *)
Lemma np_le_fle a b :
  is_nan a = false -> is_nan b = false -> np_le a b = fle a b.
Proof.
  unfold np_le, np_lt, fle, SFleb, SFltb.
  destruct a as [[]|[]| |[] ma ea], b as [[]|[]| |[] mb eb]; simpl;
    try discriminate; intros _ _; auto; cmp_cases; simpl; auto; lia.
Qed.

(** Without NaN, [<] is the negation of [>=]. *)
Lemma flt_not_fge v p :
  is_nan v = false -> is_nan p = false -> flt v p = negb (fge v p).
Proof.
  unfold flt, fge, SFleb, SFltb.
  destruct v as [[]|[]| |[] ma ea], p as [[]|[]| |[] mb eb]; simpl;
    try discriminate; intros _ _; auto; cmp_cases; simpl; auto; lia.
Qed.

(** A comparison with NaN on either side is false. *)
Lemma satisfies_nan op v p :
  is_nan v = true \/ is_nan p = true -> satisfies op v p = false.
Proof.
  unfold satisfies, flt, fgt, fle, fge, SFleb, SFltb.
  intros [H | H]; [destruct v | destruct p]; try discriminate;
    repeat match goal with |- context [if ?c then _ else _] => destruct c end;
    auto; match goal with |- context [SFcompare ?x ?y] => destruct x end; auto.
Qed.

(** -inf is below every number; only NaN is not above it for IEEE. *)
Lemma np_le_neg_inf x : np_le neg_inf x = true.
Proof. destruct x as [[]|[]| |[] m e]; reflexivity. Qed.

Lemma np_le_neg_inf_inv x : np_le x neg_inf = true -> x = neg_inf.
Proof. destruct x as [[]|[]| |[] m e]; simpl; intros H; try discriminate; auto. Qed.

(** ** [np.sort] sorts and permutes *)

Lemma insert_perm x l : Permutation (x :: l) (insert x l).
Proof.
  induction l as [|y l IH]; simpl; [reflexivity|].
  destruct (np_lt y x); [|reflexivity].
  rewrite perm_swap. now apply perm_skip.
Qed.

Lemma np_sort_perm l : Permutation l (np_sort l).
Proof.
  induction l as [|x l IH]; simpl; [constructor|].
  rewrite <- insert_perm. now apply perm_skip.
Qed.

Lemma insert_ascending x l : ascending l -> ascending (insert x l).
Proof.
  unfold ascending. induction 1 as [|y l Hs IH Hall]; simpl.
  - repeat constructor.
  - destruct (np_lt y x) eqn:Hyx.
    + constructor; [exact IH|].
      eapply Permutation_Forall; [apply insert_perm|].
      constructor; [now apply np_lt_le | exact Hall].
    + assert (Hxy : np_le x y = true) by (unfold np_le; now rewrite Hyx).
      constructor; [now constructor|].
      constructor; [exact Hxy|].
      eapply Forall_impl; [|exact Hall].
      intros z Hz. eapply np_le_trans; eassumption.
Qed.

Lemma np_sort_ascending l : ascending (np_sort l).
Proof.
  induction l as [|x l IH]; simpl; [constructor | now apply insert_ascending].
Qed.

Lemma StronglySorted_snoc {A} (R : A -> A -> Prop) l a :
  StronglySorted R l -> Forall (fun y => R y a) l -> StronglySorted R (l ++ [a]).
Proof.
  induction 1 as [|y l Hs IH Hall]; simpl; intros Ha.
  - repeat constructor.
  - inversion Ha; subst. constructor; [now apply IH|].
    apply Forall_app. split; [exact Hall | now repeat constructor].
Qed.

Lemma ascending_rev l : ascending l -> descending (rev l).
Proof.
  unfold ascending, descending.
  induction 1 as [|y l Hs IH Hall]; simpl; [constructor|].
  apply StronglySorted_snoc; [exact IH|].
  now apply Forall_rev.
Qed.

Lemma np_sort_descending l : descending (rev (np_sort l)).
Proof. apply ascending_rev, np_sort_ascending. Qed.

Lemma rev_np_sort_perm l : Permutation l (rev (np_sort l)).
Proof. rewrite <- Permutation_rev. apply np_sort_perm. Qed.

Lemma np_sort_length l : List.length (np_sort l) = List.length l.
Proof. symmetry. apply Permutation_length, np_sort_perm. Qed.

(** In a strongly sorted list the relation holds between any two
    positions taken in order. *)
Lemma StronglySorted_nth_error {A} (R : A -> A -> Prop) l :
  StronglySorted R l ->
  forall i j x y, (i < j)%nat ->
    nth_error l i = Some x -> nth_error l j = Some y -> R x y.
Proof.
  induction 1 as [|a l Hs IH Hall]; intros i j x y Hij Hi Hj.
  - destruct i; discriminate.
  - destruct j as [|j]; [lia|]. simpl in Hj.
    destruct i as [|i]; simpl in Hi.
    + injection Hi as <-. rewrite Forall_forall in Hall.
      apply Hall. eapply nth_error_In; eassumption.
    + eapply IH; [|eassumption|eassumption]. lia.
Qed.

(** ** [np.where] with a broadcast [-inf] *)

Lemma np_where_neg_left (cond : float -> bool) l :
  np_where (map cond l) (full_neg_inf (List.length l)) l = mask_where cond l.
Proof.
  unfold full_neg_inf, mask_where.
  induction l as [|x l IH]; simpl; [reflexivity | now rewrite IH].
Qed.

Lemma np_where_neg_right (keep : nat -> bool) l s :
  np_where (map keep (seq s (List.length l))) l (full_neg_inf (List.length l))
  = map (fun '(i, x) => if keep i then x else neg_inf)
        (combine (seq s (List.length l)) l).
Proof.
  unfold full_neg_inf. revert s.
  induction l as [|x l IH]; intros s; simpl; [reflexivity | now rewrite IH].
Qed.

Lemma nth_error_indexed {B} (f : nat -> float -> B) l s i :
  nth_error (map (fun '(j, x) => f j x) (combine (seq s (List.length l)) l)) i
  = option_map (f (s + i)%nat) (nth_error l i).
Proof.
  revert s i. induction l as [|x l IH]; intros s i; simpl.
  - destruct i; reflexivity.
  - destruct i as [|i]; simpl.
    + now rewrite Nat.add_0_r.
    + rewrite IH. now rewrite Nat.add_succ_r.
Qed.

Lemma sliced_length logits n m :
  List.length (sliced logits n m) = List.length logits.
Proof.
  unfold sliced. rewrite length_map, length_combine, length_seq. lia.
Qed.

Lemma sliced_nth_error logits n m i :
  nth_error (sliced logits n m) i
  = option_map (fun x => if in_range n m i then x else neg_inf)
               (nth_error logits i).
Proof. unfold sliced. now rewrite nth_error_indexed. Qed.

Lemma mask_where_length cond l :
  List.length (mask_where cond l) = List.length l.
Proof. apply length_map. Qed.

Lemma mask_where_nth_error cond l i :
  nth_error (mask_where cond l) i
  = option_map (fun v => if cond v then neg_inf else v) (nth_error l i).
Proof. apply nth_error_map. Qed.

(** ** The primitives, equation by equation *)

Lemma threshold_logits_eq logits op p :
  In op comparators ->
  threshold_logits logits op p = Ok (mask_where (fun v => satisfies op v p) logits).
Proof.
  unfold comparators, threshold_logits, satisfies.
  intros [<- | [<- | [<- | [<- | []]]]]; simpl;
    now rewrite np_where_neg_left.
Qed.

Lemma threshold_logits_invalid logits op p :
  ~ In op comparators ->
  threshold_logits logits op p = Raise (InvalidOperator op).
Proof.
  unfold comparators, threshold_logits. intros Hop.
  repeat match goal with
  | |- context [?a =? ?b] =>
      destruct (String.eqb_spec a b); [exfalso; apply Hop; subst; simpl; tauto|]
  end.
  reflexivity.
Qed.

Lemma slice_logits_eq logits n m :
  slice_logits logits n m =
  let start := start_of n in
  let stop := stop_of (List.length logits) m in
  if ((start <? 0) || (stop >? Z.of_nat (List.length logits)) || (start >=? stop))%Z
  then Raise (InvalidSliceRange start stop (List.length logits))
  else Ok (sliced logits start stop).
Proof.
  unfold slice_logits, start_of, stop_of, sliced, range_mask, in_range.
  destruct n, m; cbv zeta;
    match goal with |- context [if ?c then _ else _] => destruct c end;
    try reflexivity;
    now rewrite (np_where_neg_right (fun i => (_ <=? Z.of_nat i) && (Z.of_nat i <? _))%Z).
Qed.

(** ** Splitting and stripping *)

Lemma append_empty_r (s : string) : s ++ EmptyString = s.
Proof. induction s as [|c s IH]; simpl; [reflexivity | now rewrite IH]. Qed.

Lemma append_assoc (a b c : string) : (a ++ b) ++ c = a ++ (b ++ c).
Proof. induction a as [|x a IH]; simpl; [reflexivity | now rewrite IH]. Qed.

Lemma split_on_nonempty c s : split_on c s <> [].
Proof.
  destruct s as [|x s]; simpl; [discriminate|].
  destruct (Ascii.eqb x c); [discriminate|].
  destruct (split_on c s); discriminate.
Qed.

Lemma split_on_app c a b :
  split_on c (a ++ String c b) = (split_on c a ++ split_on c b)%list.
Proof.
  induction a as [|x a IH]; simpl.
  - now rewrite Ascii.eqb_refl.
  - destruct (Ascii.eqb x c); [now rewrite IH|].
    rewrite IH. destruct (split_on c a) eqn:Ha; [|reflexivity].
    now apply split_on_nonempty in Ha.
Qed.

Lemma split_on_absent c s : has_char c s = false -> split_on c s = [s].
Proof.
  induction s as [|x s IH]; simpl; [reflexivity|].
  intros H. apply orb_false_iff in H as [Hx Hs].
  rewrite Hx, (IH Hs). reflexivity.
Qed.

Lemma has_char_app c a b : has_char c (a ++ b) = has_char c a || has_char c b.
Proof.
  induction a as [|x a IH]; simpl; [reflexivity|].
  now rewrite IH, orb_assoc.
Qed.

Lemma no_space_has_char c s :
  isspace c = true -> no_space s = true -> has_char c s = false.
Proof.
  intros Hc. induction s as [|x s IH]; simpl; [reflexivity|].
  intros H. apply andb_true_iff in H as [Hx Hs].
  rewrite (IH Hs), orb_false_r.
  destruct (Ascii.eqb_spec x c); [subst; rewrite Hc in Hx; discriminate | reflexivity].
Qed.

Lemma is_token_no_space t : is_token t = true -> no_space t = true.
Proof. destruct t; [discriminate | auto]. Qed.

Lemma rstrip_no_space t : no_space t = true -> rstrip t = t.
Proof.
  induction t as [|c t IH]; simpl; [reflexivity|].
  intros H. apply andb_true_iff in H as [Hc Ht].
  rewrite (IH Ht). apply negb_true_iff in Hc. rewrite Hc.
  destruct t; reflexivity.
Qed.

Lemma rstrip_app_token s t : is_token t = true -> rstrip (s ++ t) = s ++ t.
Proof.
  intros Ht. induction s as [|c s IH]; simpl.
  - now apply rstrip_no_space, is_token_no_space.
  - rewrite IH. destruct (s ++ t) eqn:E; [|reflexivity].
    destruct s; simpl in E; [subst; discriminate | discriminate].
Qed.

Lemma strip_app_token s t c :
  isspace c = false -> is_token t = true ->
  strip (String c s ++ t) = String c s ++ t.
Proof.
  intros Hc Ht. unfold strip. simpl. rewrite Hc.
  now apply (rstrip_app_token (String c s)).
Qed.

Lemma all_space_lstrip s : all_space s = true -> lstrip s = EmptyString.
Proof.
  induction s as [|c s IH]; simpl; [reflexivity|].
  intros H. apply andb_true_iff in H as [Hc Hs]. now rewrite Hc, IH.
Qed.

Lemma lstrip_empty_all_space s : lstrip s = EmptyString -> all_space s = true.
Proof.
  induction s as [|c s IH]; simpl; [reflexivity|].
  destruct (isspace c); [exact IH | discriminate].
Qed.

Lemma rstrip_empty_all_space s : rstrip s = EmptyString -> all_space s = true.
Proof.
  induction s as [|c s IH]; simpl; [reflexivity|].
  destruct (rstrip s); [|discriminate].
  destruct (isspace c); [auto | discriminate].
Qed.

Lemma lstrip_head s :
  match lstrip s with
  | EmptyString => True
  | String c _ => isspace c = false
  end.
Proof.
  induction s as [|c s IH]; simpl; [exact I|].
  destruct (isspace c) eqn:Hc; [exact IH | exact Hc].
Qed.

(** A line is blank exactly when it consists of whitespace. *)
Lemma blank_all_space s : blank s = all_space s.
Proof.
  unfold blank, strip.
  destruct (all_space s) eqn:Hs.
  - now rewrite all_space_lstrip.
  - destruct (String.eqb_spec (rstrip (lstrip s)) EmptyString); [|reflexivity].
    apply rstrip_empty_all_space in e.
    pose proof (lstrip_head s) as Hh.
    destruct (lstrip s) eqn:El.
    + apply lstrip_empty_all_space in El. congruence.
    + simpl in e. rewrite Hh in e. discriminate.
Qed.

Lemma all_space_split_on c s :
  all_space s = true -> Forall (fun p => all_space p = true) (split_on c s).
Proof.
  induction s as [|x s IH]; simpl; intros H.
  - now constructor.
  - apply andb_true_iff in H as [Hx Hs]. specialize (IH Hs).
    destruct (Ascii.eqb x c); [now constructor|].
    destruct (split_on c s) as [|p ps]; inversion IH; subst.
    + repeat constructor. simpl. now rewrite Hx.
    + constructor; [simpl; now rewrite Hx | assumption].
Qed.

Lemma split_fields_no_space t s :
  no_space t = true ->
  split_fields (t ++ s)
  = (t ++ fst (split_fields s), snd (split_fields s)).
Proof.
  induction t as [|c t IH]; simpl; intros H.
  - now destruct (split_fields s).
  - apply andb_true_iff in H as [Hc Ht]. apply negb_true_iff in Hc.
    rewrite (IH Ht), Hc. reflexivity.
Qed.

Lemma split_ws_token t : is_token t = true -> split_ws t = [t].
Proof.
  intros Ht. unfold split_ws.
  rewrite <- (append_empty_r t) at 1.
  rewrite split_fields_no_space by now apply is_token_no_space.
  simpl. rewrite append_empty_r. destruct t; [discriminate | reflexivity].
Qed.

Lemma split_ws_token_space t c s :
  is_token t = true -> isspace c = true ->
  split_ws (t ++ String c s) = t :: split_ws s.
Proof.
  intros Ht Hc. unfold split_ws.
  rewrite split_fields_no_space by now apply is_token_no_space.
  simpl. destruct (split_fields s) as [f fs]. rewrite Hc. simpl.
  rewrite append_empty_r. destruct t; [discriminate | reflexivity].
Qed.

(** ** Lines of a program text *)

Lemma parse_dsl_app a b :
  parse_dsl (a ++ nl ++ b) = (parse_dsl a ++ parse_dsl b)%list.
Proof.
  unfold parse_dsl, nl. simpl.
  now rewrite split_on_app, filter_app, map_app.
Qed.

Lemma parse_dsl_all_space s : all_space s = true -> parse_dsl s = [].
Proof.
  intros Hs. unfold parse_dsl.
  pose proof (all_space_split_on newline s Hs) as Hall.
  induction Hall as [|p ps Hp _ IH]; simpl; [reflexivity|].
  fold (blank p). rewrite blank_all_space, Hp. exact IH.
Qed.

(** A text of one line that has nothing to strip. *)
Lemma parse_dsl_line s :
  has_char newline s = false -> strip s = s -> s <> EmptyString -> parse_dsl s = [s].
Proof.
  intros Hn Hs Hne. unfold parse_dsl.
  rewrite split_on_absent by exact Hn. simpl. rewrite Hs.
  destruct (String.eqb_spec s EmptyString); [contradiction|]. simpl. now rewrite Hs.
Qed.

Lemma parse_dsl_join lines :
  parse_dsl (join_lines lines) = List.concat (map parse_dsl lines).
Proof.
  induction lines as [|l rest IH]; [reflexivity|].
  destruct rest as [|l' rest].
  - simpl. now rewrite app_nil_r.
  - change (join_lines (l :: l' :: rest)) with (l ++ nl ++ join_lines (l' :: rest)).
    rewrite parse_dsl_app, IH. reflexivity.
Qed.

Lemma parse_dsl_filter_blank lines :
  List.concat (map parse_dsl (filter (fun l => negb (blank l)) lines))
  = List.concat (map parse_dsl lines).
Proof.
  induction lines as [|l rest IH]; simpl; [reflexivity|].
  destruct (blank l) eqn:Hb; simpl.
  - rewrite blank_all_space in Hb. now rewrite parse_dsl_all_space.
  - now rewrite IH.
Qed.

(** ** Running command lines *)

Lemma bind_ok {A} (r : result A) : (x <- r ;; Ok x) = r.
Proof. now destruct r. Qed.

Lemma run_commands_app logits cs1 cs2 :
  run_commands logits (cs1 ++ cs2)
  = (logits' <- run_commands logits cs1 ;; run_commands logits' cs2).
Proof.
  revert logits. induction cs1 as [|c cs1 IH]; intros logits; simpl.
  - reflexivity.
  - destruct (exec_command logits c); simpl; [apply IH | reflexivity].
Qed.

Lemma interpret_dsl_line logits s :
  has_char newline s = false -> strip s = s -> s <> EmptyString ->
  interpret_dsl logits s = exec_command logits s.
Proof.
  intros Hn Hs Hne. unfold interpret_dsl.
  rewrite parse_dsl_line by assumption. simpl. apply bind_ok.
Qed.

Lemma interpret_dsl_app logits a b :
  interpret_dsl logits (a ++ nl ++ b)
  = (logits' <- interpret_dsl logits a ;; interpret_dsl logits' b).
Proof.
  unfold interpret_dsl. now rewrite parse_dsl_app, run_commands_app.
Qed.

(** Extra fields of a command line are never looked at. *)
Lemma exec_parts_sort logits order extra :
  exec_parts logits ("sort" :: order :: extra) = sort_logits logits order.
Proof. reflexivity. Qed.

Lemma exec_parts_slice logits arg extra :
  exec_parts logits ("slice" :: arg :: extra)
  = exec_parts logits ["slice"; arg].
Proof. reflexivity. Qed.

Lemma exec_parts_threshold logits op value extra :
  exec_parts logits ("threshold" :: op :: value :: extra)
  = (p <- float_literal value ;; threshold_logits logits op p).
Proof. reflexivity. Qed.

(** ** Masking only grows *)

Lemma is_neg_inf_eq x : is_neg_inf x = true <-> x = neg_inf.
Proof.
  destruct x as [[]|[]| |[] m e]; simpl; split; intros H;
    try discriminate; auto.
Qed.

Lemma count_occ_unmasked l x :
  count_occ float_eq_dec (unmasked l) x
  = if is_neg_inf x then 0%nat else count_occ float_eq_dec l x.
Proof.
  unfold unmasked. induction l as [|y l IH]; simpl.
  - now destruct (is_neg_inf x).
  - destruct (is_neg_inf y) eqn:Hy; simpl.
    + rewrite IH. destruct (float_eq_dec y x) as [->|]; [|reflexivity].
      now rewrite Hy.
    + rewrite IH. destruct (float_eq_dec y x) as [->|]; [|reflexivity].
      now rewrite Hy.
Qed.

Lemma masks_more_refl l : masks_more l l.
Proof. unfold masks_more, sub_multiset. auto. Qed.

Lemma masks_more_trans a b c :
  masks_more a b -> masks_more b c -> masks_more a c.
Proof.
  unfold masks_more, sub_multiset.
  intros (Hl1 & Hs1 & Hc1) (Hl2 & Hs2 & Hc2).
  repeat split; [congruence | | lia].
  intros x. specialize (Hs1 x). specialize (Hs2 x). lia.
Qed.

Lemma perm_masks_more a b : Permutation a b -> masks_more a b.
Proof.
  intros H. unfold masks_more, sub_multiset. repeat split.
  - symmetry. now apply Permutation_length.
  - intros x. rewrite !count_occ_unmasked.
    rewrite (Permutation_count_occ float_eq_dec a b) in H.
    rewrite (H x). lia.
  - rewrite (Permutation_count_occ float_eq_dec a b) in H.
    rewrite (H neg_inf). lia.
Qed.


Lemma entrywise_masks_more a b : entrywise_masked a b -> masks_more a b.
Proof.
  unfold entrywise_masked, masks_more, sub_multiset.
  induction 1 as [|x y a b Hxy Hab (IHl & IHs & IHc)].
  - simpl. auto.
  - repeat split.
    + simpl. now rewrite IHl.
    + intros z. specialize (IHs z). rewrite !count_occ_unmasked in *.
      destruct (is_neg_inf z) eqn:Hz; [lia|]. simpl.
      destruct Hxy as [-> | ->].
      * destruct (float_eq_dec x z); lia.
      * destruct (float_eq_dec neg_inf z) as [<-|]; [discriminate|].
        destruct (float_eq_dec x z); lia.
    + simpl. destruct Hxy as [-> | ->].
      * destruct (float_eq_dec x neg_inf); lia.
      * destruct (float_eq_dec neg_inf neg_inf); [|congruence].
        destruct (float_eq_dec x neg_inf); lia.
Qed.

Lemma mask_where_entrywise cond l : entrywise_masked l (mask_where cond l).
Proof.
  unfold entrywise_masked, mask_where.
  induction l as [|x l IH]; simpl; constructor; auto.
  destruct (cond x); auto.
Qed.

Lemma sliced_entrywise l n m : entrywise_masked l (sliced l n m).
Proof.
  unfold entrywise_masked, sliced. generalize 0%nat as s.
  induction l as [|x l IH]; intros s; simpl; constructor; auto.
  destruct (in_range n m s); auto.
Qed.

Lemma entrywise_keeps_neg_inf a b i :
  entrywise_masked a b ->
  nth_error a i = Some neg_inf -> nth_error b i = Some neg_inf.
Proof.
  unfold entrywise_masked. intros H. revert i.
  induction H as [|x y a b Hxy Hab IH]; intros i Hi.
  - destruct i; discriminate.
  - destruct i as [|i]; simpl in *; [|now apply IH].
    injection Hi as ->. destruct Hxy as [-> | ->]; reflexivity.
Qed.

Lemma sort_logits_masks_more logits order out :
  sort_logits logits order = Ok out -> masks_more logits out.
Proof.
  unfold sort_logits. intros H. apply perm_masks_more.
  destruct (order =? "-"); [injection H as <-; apply rev_np_sort_perm|].
  destruct (order =? "+"); [injection H as <-; apply np_sort_perm | discriminate].
Qed.

Lemma slice_logits_entrywise logits n m out :
  slice_logits logits n m = Ok out -> entrywise_masked logits out.
Proof.
  rewrite slice_logits_eq. cbv zeta.
  destruct (_ || _ || _)%bool; [discriminate|].
  intros H. injection H as <-. apply sliced_entrywise.
Qed.

Lemma threshold_logits_entrywise logits op p out :
  threshold_logits logits op p = Ok out -> entrywise_masked logits out.
Proof.
  destruct (in_dec string_dec op comparators) as [Hop | Hop].
  - rewrite threshold_logits_eq by exact Hop.
    intros H. injection H as <-. apply mask_where_entrywise.
  - rewrite threshold_logits_invalid by exact Hop. discriminate.
Qed.

Lemma exec_parts_masks_more logits parts out :
  exec_parts logits parts = Ok out -> masks_more logits out.
Proof.
  unfold exec_parts. destruct parts as [|cmd args]; [discriminate|].
  destruct (cmd =? "sort"); [apply sort_logits_masks_more|].
  destruct (cmd =? "slice").
  { destruct args as [|arg args]; [discriminate|].
    destruct (split_on ":" arg) as [|n [|m [|? ?]]]; try discriminate.
    destruct (optional_int n); [simpl | discriminate].
    destruct (optional_int m); [simpl | discriminate].
    intros H. eapply entrywise_masks_more, slice_logits_entrywise, H. }
  destruct (cmd =? "threshold"); [|discriminate].
  destruct args as [|op [|value args]]; try discriminate.
  destruct (float_literal value); [simpl | discriminate].
  intros H. eapply entrywise_masks_more, threshold_logits_entrywise, H.
Qed.

Lemma run_commands_masks_more commands : forall logits out,
  run_commands logits commands = Ok out -> masks_more logits out.
Proof.
  induction commands as [|c cs IH]; intros logits out; simpl.
  - intros H. injection H as <-. apply masks_more_refl.
  - destruct (exec_command logits c) as [mid|] eqn:Hc; [simpl | discriminate].
    intros H. eapply masks_more_trans; [|apply IH; exact H].
    eapply exec_parts_masks_more. exact Hc.
Qed.

(** ** Range masking (C3) *)

(** C3. With an omitted [n] read as 0 and an omitted [m] as the size N,
    [slice_logits] raises its range error exactly when [n < 0], [m > N]
    or [n >= m], and then returns no vector; otherwise it returns a
    vector of size N whose entries at the positions [i] with
    [n <= i < m] are those of the input and whose other entries are
    [-inf]. *)
Theorem slice_logits_spec (logits : vector) (n m : option Z) :
  let size := List.length logits in
  let start := start_of n in
  let stop := stop_of size m in
  let bad := (start < 0 \/ stop > Z.of_nat size \/ start >= stop)%Z in
  ((exists e, slice_logits logits n m = Raise e) <-> bad)
  /\ (bad ->
     slice_logits logits n m = Raise (InvalidSliceRange start stop size)
     /\ is_range_error (InvalidSliceRange start stop size) = true)
  /\ (~ bad ->
     exists out,
       slice_logits logits n m = Ok out
       /\ List.length out = size
       /\ forall i x, nth_error logits i = Some x ->
            nth_error out i = Some (if in_range start stop i then x else neg_inf)).
Proof.
  cbv zeta. rewrite slice_logits_eq. cbv zeta.
  set (start := start_of n). set (stop := stop_of (List.length logits) m).
  destruct ((start <? 0) || (stop >? Z.of_nat (List.length logits))
            || (start >=? stop))%Z eqn:Hc.
  - assert (Hbad : (start < 0 \/ stop > Z.of_nat (List.length logits)
                    \/ start >= stop)%Z).
    { apply orb_true_iff in Hc as [Hc | Hc];
        [apply orb_true_iff in Hc as [Hc | Hc]|]; lia. }
    split; [split; [auto | eauto]|].
    split; [auto|]. intros Hvalid. contradiction.
  - apply orb_false_iff in Hc as [Hc H3]. apply orb_false_iff in Hc as [H1 H2].
    split; [split; [intros [e He]; discriminate | intros Hbad; exfalso; lia]|].
    split; [intros Hbad; exfalso; lia|]. intros _.
    exists (sliced logits start stop). split; [reflexivity|].
    split; [apply sliced_length|].
    intros i x Hi. now rewrite sliced_nth_error, Hi.
Qed.

Lemma slice_logits_spec_witness :
  exists out,
    slice_logits demo_logits (Some 1%Z) None = Ok out
    /\ List.length out = 5%nat
    /\ forall i x, nth_error demo_logits i = Some x ->
         nth_error out i = Some (if in_range 1 5 i then x else neg_inf).
Proof.
  apply (proj2 (proj2 (slice_logits_spec demo_logits (Some 1%Z) None))).
  simpl. lia.
Defined.

(** ** Length (C4) *)

(** C4. When the interpretation of a program succeeds, the vector it
    returns has the length of the input vector. *)
Theorem interpret_dsl_length (logits : vector) (text : string) (out : vector) :
  interpret_dsl logits text = Ok out ->
  List.length out = List.length logits.
Proof.
  intros H. apply run_commands_masks_more in H. apply H.
Qed.

Lemma interpret_dsl_length_witness :
  List.length [f_2_3; f_1_1; f_0_7; neg_inf; neg_inf] = List.length demo_logits.
Proof.
  apply (interpret_dsl_length demo_logits top_3). reflexivity.
Defined.

(** ** Threshold masking (C1) *)

Lemma comparator_is_token op : In op comparators -> is_token op = true.
Proof. intros [<- | [<- | [<- | [<- | []]]]]; reflexivity. Qed.

Lemma threshold_line logits op ptext :
  is_token op = true -> is_token ptext = true ->
  interpret_dsl logits ("threshold " ++ op ++ " " ++ ptext)
  = exec_parts logits ["threshold"; op; ptext].
Proof.
  intros Hop Hp.
  assert (Hsp : isspace " " = true) by reflexivity.
  rewrite interpret_dsl_line.
  - unfold exec_command.
    change ("threshold " ++ op ++ " " ++ ptext)
      with ("threshold" ++ String " " (op ++ String " " ptext)).
    rewrite (split_ws_token_space "threshold") by reflexivity.
    rewrite split_ws_token_space by assumption.
    now rewrite split_ws_token.
  - change ("threshold " ++ op ++ " " ++ ptext)
      with ("threshold" ++ (String " " op ++ String " " ptext)).
    rewrite !has_char_app. simpl.
    rewrite !(no_space_has_char newline) by (auto using is_token_no_space).
    reflexivity.
  - rewrite <- (append_assoc op " " ptext).
    rewrite <- (append_assoc "threshold " (op ++ " ") ptext).
    now apply (strip_app_token ("hreshold " ++ op ++ " ") ptext "t").
  - discriminate.
Qed.

(** C1, as stated, fails on NaN: the notebook's program [threshold < 1]
    leaves a NaN entry in place, although [nan >= 1] does not hold. *)
Lemma threshold_lt_keeps_nan :
  interpret_dsl [S754_nan] min_1 = Ok [S754_nan]
  /\ fge S754_nan f_1_0 = false
  /\ ~ keeps_exactly_ge [S754_nan] f_1_0.
Proof.
  split; [reflexivity|]. split; [reflexivity|].
  unfold keeps_exactly_ge. vm_compute. discriminate.
Qed.

(** C1, amended.  For every vector, comparator [op] among [<], [>], [<=],
    [>=] and threshold literal denoting [p], executing [threshold op p]
    returns a vector of the same length in which exactly the entries that
    satisfy the comparator against [p] are overwritten with [-inf] and
    the others are kept.  A comparison with NaN is false, so for [<] an
    entry [v] is kept exactly when [v >= p], provided neither [v] nor [p]
    is NaN; a NaN entry is kept, and a NaN threshold masks nothing. *)
Theorem threshold_spec (logits : vector) (op ptext : string) (p : float) :
  In op comparators -> is_token ptext = true -> py_float ptext = Some p ->
  exists out,
    interpret_dsl logits ("threshold " ++ op ++ " " ++ ptext) = Ok out
    /\ threshold_logits logits op p = Ok out
    /\ List.length out = List.length logits
    /\ (forall i v, nth_error logits i = Some v ->
          nth_error out i = Some (if satisfies op v p then neg_inf else v))
    /\ (op = "<" -> forall i v, nth_error logits i = Some v ->
          nth_error out i
          = Some (if is_nan v || is_nan p then v
                  else if fge v p then v else neg_inf)).
Proof.
  intros Hop Htok Hp.
  exists (mask_where (fun v => satisfies op v p) logits).
  assert (Hnth : forall i v, nth_error logits i = Some v ->
            nth_error (mask_where (fun v => satisfies op v p) logits) i
            = Some (if satisfies op v p then neg_inf else v)).
  { intros i v Hi. now rewrite mask_where_nth_error, Hi. }
  split.
  { rewrite threshold_line by auto using comparator_is_token.
    rewrite exec_parts_threshold. unfold float_literal. rewrite Hp. simpl.
    now apply threshold_logits_eq. }
  split; [now apply threshold_logits_eq|].
  split; [apply mask_where_length|].
  split; [exact Hnth|].
  intros -> i v Hi. rewrite (Hnth i v Hi). f_equal.
  destruct (is_nan v || is_nan p) eqn:Hnan.
  - rewrite satisfies_nan; [reflexivity|].
    now apply orb_true_iff in Hnan.
  - apply orb_false_iff in Hnan as [Hv Hpn].
    change (satisfies "<" v p) with (flt v p).
    rewrite flt_not_fge by assumption. now destruct (fge v p).
Qed.

Lemma threshold_spec_witness :
  exists out,
    interpret_dsl demo_logits ("threshold " ++ "<" ++ " " ++ "1") = Ok out
    /\ threshold_logits demo_logits "<" f_1_0 = Ok out
    /\ List.length out = List.length demo_logits
    /\ (forall i v, nth_error demo_logits i = Some v ->
          nth_error out i = Some (if satisfies "<" v f_1_0 then neg_inf else v))
    /\ ("<" = "<" -> forall i v, nth_error demo_logits i = Some v ->
          nth_error out i
          = Some (if is_nan v || is_nan f_1_0 then v
                  else if fge v f_1_0 then v else neg_inf)).
Proof.
  apply (threshold_spec demo_logits "<" "1" f_1_0).
  - simpl. auto.
  - reflexivity.
  - vm_compute. reflexivity.
Defined.

(** ** Sorting (C5, C7) *)

Lemma sort_line logits order :
  is_token order = true ->
  interpret_dsl logits ("sort " ++ order) = sort_logits logits order.
Proof.
  intros Ho. rewrite interpret_dsl_line.
  - unfold exec_command.
    change ("sort " ++ order) with ("sort" ++ String " " order).
    rewrite (split_ws_token_space "sort") by reflexivity.
    now rewrite split_ws_token.
  - change ("sort " ++ order) with ("sort" ++ (String " " order)).
    rewrite has_char_app. simpl.
    now rewrite (no_space_has_char newline) by (auto using is_token_no_space).
  - now apply (strip_app_token "ort " order "s").
  - discriminate.
Qed.

(** C5. [sort -] returns a permutation of the input ordered from largest
    to smallest and [sort +] one ordered from smallest to largest, for the
    order of [np.sort] (the IEEE order on numbers, see [np_le_fle], with
    NaN above every number).  [sort] alone behaves as [sort -], and [sort]
    with any other argument raises the invalid-order error, which is a
    parse error. *)
Theorem sort_spec (logits : vector) :
  (exists out, interpret_dsl logits "sort -" = Ok out
     /\ Permutation logits out /\ descending out)
  /\ (exists out, interpret_dsl logits "sort +" = Ok out
     /\ Permutation logits out /\ ascending out)
  /\ interpret_dsl logits "sort" = interpret_dsl logits "sort -"
  /\ (forall order, is_token order = true -> order <> "+" -> order <> "-" ->
        interpret_dsl logits ("sort " ++ order) = Raise (InvalidOrder order)
        /\ is_parse_error (InvalidOrder order) = true)
  /\ (forall a b, is_nan a = false -> is_nan b = false -> np_le a b = fle a b).
Proof.
  split; [|split; [|split; [|split; [|apply np_le_fle]]]].
  - exists (rev (np_sort logits)).
    split; [reflexivity|]. split; [apply rev_np_sort_perm | apply np_sort_descending].
  - exists (np_sort logits).
    split; [reflexivity|]. split; [apply np_sort_perm | apply np_sort_ascending].
  - reflexivity.
  - intros order Ho Hplus Hminus. split; [|reflexivity].
    rewrite sort_line by exact Ho. unfold sort_logits.
    apply String.eqb_neq in Hplus, Hminus. now rewrite Hplus, Hminus.
Qed.

Lemma sort_spec_witness :
  interpret_dsl demo_logits ("sort " ++ "desc") = Raise (InvalidOrder "desc")
  /\ is_parse_error (InvalidOrder "desc") = true.
Proof.
  apply (proj1 (proj2 (proj2 (proj2 (sort_spec demo_logits))))).
  - reflexivity.
  - discriminate.
  - discriminate.
Defined.

Lemma finite_above_neg_inf x :
  is_finite x = true -> np_le x neg_inf = false.
Proof. destruct x as [[]|[]| |[] m e]; simpl; intros H; try discriminate; auto. Qed.

(** C7. In the result of a descending sort every [-inf] entry stands
    after every finite entry, and in the result of an ascending sort
    before every finite entry; so [sort -] followed by [sort +] is not
    the identity on a masked vector such as [[1.0, -inf]]. *)
Theorem neg_inf_sorts_to_one_end (logits : vector) :
  (forall out i j x,
      sort_logits logits "-" = Ok out ->
      nth_error out i = Some neg_inf -> nth_error out j = Some x ->
      is_finite x = true -> (j < i)%nat)
  /\ (forall out i j x,
      sort_logits logits "+" = Ok out ->
      nth_error out i = Some neg_inf -> nth_error out j = Some x ->
      is_finite x = true -> (i < j)%nat)
  /\ interpret_dsl [f_1_0; neg_inf] ("sort -" ++ nl ++ "sort +")
     = Ok [neg_inf; f_1_0].
Proof.
  split; [|split; [|reflexivity]].
  - intros out i j x Hs Hi Hj Hx. simpl in Hs. injection Hs as <-.
    pose proof (finite_above_neg_inf x Hx) as Hlt.
    destruct (Nat.lt_trichotomy j i) as [Hji | [-> | Hij]]; [exact Hji | |].
    + rewrite Hi in Hj. injection Hj as <-. discriminate.
    + pose proof (StronglySorted_nth_error _ _ (np_sort_descending logits)
                    i j neg_inf x Hij Hi Hj) as H.
      simpl in H. congruence.
  - intros out i j x Hs Hi Hj Hx. simpl in Hs. injection Hs as <-.
    pose proof (finite_above_neg_inf x Hx) as Hlt.
    destruct (Nat.lt_trichotomy i j) as [Hij | [-> | Hji]]; [exact Hij | |].
    + rewrite Hi in Hj. injection Hj as <-. discriminate.
    + pose proof (StronglySorted_nth_error _ _ (np_sort_ascending logits)
                    j i x neg_inf Hji Hj Hi) as H.
      simpl in H. congruence.
Qed.

Lemma neg_inf_sorts_to_one_end_witness : (1 < 2)%nat.
Proof.
  apply (proj1 (neg_inf_sorts_to_one_end [neg_inf; f_1_0; f_2_3; neg_inf])
           [f_2_3; f_1_0; neg_inf; neg_inf] 2%nat 1%nat f_1_0).
  - reflexivity.
  - reflexivity.
  - reflexivity.
  - reflexivity.
Defined.

(** ** Blank lines and extra fields (C8, C9) *)

(** C8. A text of whitespace and newlines only returns the input vector
    unchanged, and two texts whose lines agree once the blank lines are
    dropped are interpreted alike: blank lines can be added or removed
    anywhere. *)
Theorem blank_lines_ignored (logits : vector) :
  (forall text, all_space text = true -> interpret_dsl logits text = Ok logits)
  /\ (forall lines lines',
        filter (fun l => negb (blank l)) lines
        = filter (fun l => negb (blank l)) lines' ->
        interpret_dsl logits (join_lines lines)
        = interpret_dsl logits (join_lines lines')).
Proof.
  split.
  - intros text Ht. unfold interpret_dsl.
    now rewrite parse_dsl_all_space.
  - intros lines lines' H. unfold interpret_dsl.
    rewrite !parse_dsl_join.
    rewrite <- (parse_dsl_filter_blank lines), <- (parse_dsl_filter_blank lines').
    now rewrite H.
Qed.

Lemma blank_lines_ignored_witness :
  interpret_dsl demo_logits (join_lines ["sort"; "  "; "slice :3"])
  = interpret_dsl demo_logits (join_lines [EmptyString; "sort"; "slice :3"; EmptyString; " "]).
Proof.
  apply (proj2 (blank_lines_ignored demo_logits)). reflexivity.
Defined.

(** C9. Fields after those a command reads are ignored: [sort] reads one
    argument, [slice] one and [threshold] two, so [sort - x],
    [slice 0:3 x] and [threshold < 1 x] are interpreted as [sort -],
    [slice 0:3] and [threshold < 1]. *)
Theorem extra_fields_ignored (logits : vector) :
  interpret_dsl logits "sort - x" = interpret_dsl logits "sort -"
  /\ interpret_dsl logits "slice 0:3 x" = interpret_dsl logits "slice 0:3"
  /\ interpret_dsl logits "threshold < 1 x" = interpret_dsl logits "threshold < 1"
  /\ (forall order extra,
        exec_parts logits ("sort" :: order :: extra)
        = exec_parts logits ["sort"; order])
  /\ (forall arg extra,
        exec_parts logits ("slice" :: arg :: extra)
        = exec_parts logits ["slice"; arg])
  /\ (forall op value extra,
        exec_parts logits ("threshold" :: op :: value :: extra)
        = exec_parts logits ["threshold"; op; value]).
Proof.
  repeat split; reflexivity.
Qed.

(** ** Masking is monotone (C10) *)

(** C10. Each primitive that succeeds, and so each program that succeeds,
    returns a vector whose unmasked values form a sub-multiset of the
    unmasked values of its input and which has at least as many [-inf]
    entries; [slice] and [threshold] moreover leave [-inf] at every
    position that held it. *)
Theorem masking_monotone :
  (forall logits order out,
      sort_logits logits order = Ok out -> masks_more logits out)
  /\ (forall logits n m out,
      slice_logits logits n m = Ok out ->
      masks_more logits out
      /\ forall i, nth_error logits i = Some neg_inf ->
                   nth_error out i = Some neg_inf)
  /\ (forall logits op p out,
      threshold_logits logits op p = Ok out ->
      masks_more logits out
      /\ forall i, nth_error logits i = Some neg_inf ->
                   nth_error out i = Some neg_inf)
  /\ (forall logits text out,
      interpret_dsl logits text = Ok out -> masks_more logits out).
Proof.
  split; [|split; [|split]].
  - apply sort_logits_masks_more.
  - intros logits n m out H. apply slice_logits_entrywise in H.
    split; [now apply entrywise_masks_more|].
    intros i. now apply entrywise_keeps_neg_inf.
  - intros logits op p out H. apply threshold_logits_entrywise in H.
    split; [now apply entrywise_masks_more|].
    intros i. now apply entrywise_keeps_neg_inf.
  - intros logits text out. apply run_commands_masks_more.
Qed.

Lemma masking_monotone_witness :
  masks_more demo_logits [neg_inf; f_2_3; f_1_1; neg_inf; neg_inf].
Proof.
  apply (proj2 (proj2 (proj2 masking_monotone)) demo_logits min_1).
  reflexivity.
Defined.

(** ** Malformed lines (C6) *)

(** A parse error does not depend on the vector. *)
Lemma exec_parts_parse_error logits parts e :
  exec_parts logits parts = Raise e -> is_parse_error e = true ->
  forall logits', exec_parts logits' parts = Raise e.
Proof.
  unfold exec_parts. destruct parts as [|cmd args]; [auto|].
  destruct (cmd =? "sort").
  { unfold sort_logits.
    destruct (_ =? "-"); [discriminate|]. destruct (_ =? "+"); [discriminate | auto]. }
  destruct (cmd =? "slice").
  { destruct args as [|arg args]; [auto|].
    destruct (split_on ":" arg) as [|n [|m [|? ?]]]; auto.
    destruct (optional_int n) as [n'|]; simpl; [|auto].
    destruct (optional_int m) as [m'|]; simpl; [|auto].
    rewrite slice_logits_eq. cbv zeta.
    destruct (_ || _ || _)%bool; [|discriminate].
    intros H. injection H as <-. discriminate. }
  destruct (cmd =? "threshold"); [|auto].
  destruct args as [|op [|value args]]; auto.
  destruct (float_literal value) as [p|]; simpl; [|auto].
  destruct (in_dec string_dec op comparators) as [Hop | Hop].
  - rewrite threshold_logits_eq by exact Hop. discriminate.
  - intros H _ logits'. rewrite threshold_logits_invalid in * by exact Hop.
    exact H.
Qed.

Lemma parse_error_malformed logits line e :
  exec_command logits line = Raise e -> is_parse_error e = true ->
  malformed_with e line.
Proof.
  intros H He. split; [exact He|]. intros logits'.
  unfold exec_command in *. eapply exec_parts_parse_error; eassumption.
Qed.

(** The kinds of malformed lines: an unknown keyword, a sort order other
    than [+] and [-], a slice argument that is not [n:m] with integer or
    empty [n] and [m], a threshold value that is not a float literal, a
    threshold operator that is not a comparator. *)
Lemma malformed_kinds line :
  (forall cmd args, split_ws line = cmd :: args ->
     cmd <> "sort" -> cmd <> "slice" -> cmd <> "threshold" ->
     malformed_with (UnknownCommand cmd) line)
  /\ (forall order rest, split_ws line = "sort" :: order :: rest ->
     order <> "+" -> order <> "-" ->
     malformed_with (InvalidOrder order) line)
  /\ (forall arg rest, split_ws line = "slice" :: arg :: rest ->
     List.length (split_on ":" arg) <> 2%nat ->
     malformed_with (UnpackError (List.length (split_on ":" arg))) line)
  /\ (forall arg rest n m, split_ws line = "slice" :: arg :: rest ->
     split_on ":" arg = [n; m] -> n <> EmptyString -> py_int n = None ->
     malformed_with (IntLiteralError n) line)
  /\ (forall op value rest, split_ws line = "threshold" :: op :: value :: rest ->
     py_float value = None ->
     malformed_with (FloatLiteralError value) line)
  /\ (forall op value rest p, split_ws line = "threshold" :: op :: value :: rest ->
     py_float value = Some p -> ~ In op comparators ->
     malformed_with (InvalidOperator op) line).
Proof.
  unfold malformed_with, exec_command.
  split; [|split; [|split; [|split; [|split]]]].
  - intros cmd args Hparts Hsort Hslice Hthreshold.
    split; [reflexivity|]. intros logits. rewrite Hparts. unfold exec_parts.
    apply String.eqb_neq in Hsort, Hslice, Hthreshold.
    now rewrite Hsort, Hslice, Hthreshold.
  - intros order rest Hparts Hplus Hminus.
    split; [reflexivity|]. intros logits.
    rewrite Hparts, exec_parts_sort. unfold sort_logits.
    apply String.eqb_neq in Hplus, Hminus. now rewrite Hplus, Hminus.
  - intros arg rest Hparts Hpieces.
    split; [reflexivity|]. intros logits.
    rewrite Hparts. unfold exec_parts. simpl String.eqb. cbv iota.
    destruct (split_on ":" arg) as [|n [|m [|? ?]]]; try reflexivity.
    now contradiction Hpieces.
  - intros arg rest n m Hparts Hpieces Hn Hint.
    split; [reflexivity|]. intros logits.
    rewrite Hparts. unfold exec_parts. simpl String.eqb. cbv iota.
    rewrite Hpieces. unfold optional_int, int_literal. rewrite Hint.
    destruct n; [contradiction | reflexivity].
  - intros op value rest Hparts Hfloat.
    split; [reflexivity|]. intros logits.
    rewrite Hparts, exec_parts_threshold. unfold float_literal.
    now rewrite Hfloat.
  - intros op value rest p Hparts Hfloat Hop.
    split; [reflexivity|]. intros logits.
    rewrite Hparts, exec_parts_threshold. unfold float_literal.
    rewrite Hfloat. simpl. now apply threshold_logits_invalid.
Qed.

(** When a run fails, one of its lines raised the exception. *)
Lemma run_commands_raise commands : forall logits e,
  run_commands logits commands = Raise e ->
  exists line logits', In line commands /\ exec_command logits' line = Raise e.
Proof.
  induction commands as [|c cs IH]; intros logits e; simpl; [discriminate|].
  destruct (exec_command logits c) as [mid|e'] eqn:Hc; simpl.
  - intros H. destruct (IH _ _ H) as (line & logits' & Hin & Hl).
    exists line, logits'. auto.
  - intros H. injection H as <-. exists c, logits. auto.
Qed.

(** C6, as stated, fails: the second line of ["slice 5:9\nbogus"] is
    malformed, yet on a vector of five entries the run ends with the
    range error of the first line, which is not a parse error. *)
Lemma range_error_before_parse_error :
  has_malformed_line ("slice 5:9" ++ nl ++ "bogus")
  /\ interpret_dsl demo_logits ("slice 5:9" ++ nl ++ "bogus")
     = Raise (InvalidSliceRange 5 9 5)
  /\ ~ fails_with_parse_error demo_logits ("slice 5:9" ++ nl ++ "bogus").
Proof.
  split; [|split].
  - exists "bogus". split; [simpl; auto|].
    exists (UnknownCommand "bogus"). split; [reflexivity|]. intros logits. reflexivity.
  - reflexivity.
  - intros (e & He & Hp).
    change (interpret_dsl demo_logits ("slice 5:9" ++ nl ++ "bogus"))
      with (@Raise vector (InvalidSliceRange 5 9 5)) in He.
    injection He as <-. discriminate.
Qed.

(** C6, amended.  Command lines are read one at a time while the program
    runs.  When a line of the program is malformed the interpretation
    fails for every vector: with the parse error of that line when the
    lines before it run without error, and otherwise with the exception of
    the earlier line that fails first; when no earlier line is malformed,
    that exception is a range error. *)
Theorem malformed_line_fails (logits : vector) (text : string)
    (before : list string) (line : string) (after : list string) (e : exn) :
  parse_dsl text = (before ++ line :: after)%list ->
  malformed_with e line ->
  interpret_dsl logits text
  = match run_commands logits before with
    | Ok _ => Raise e
    | Raise e' => Raise e'
    end
  /\ ((forall l, In l before -> ~ malformed l) ->
      forall e', run_commands logits before = Raise e' ->
                 is_range_error e' = true).
Proof.
  intros Hparse [He Hline]. split.
  - unfold interpret_dsl. rewrite Hparse, run_commands_app.
    destruct (run_commands logits before) as [mid|e']; simpl; [|reflexivity].
    now rewrite Hline.
  - intros Hwell e' Hrun.
    destruct (run_commands_raise _ _ _ Hrun) as (l & logits' & Hin & Hl).
    destruct (is_range_error e') eqn:Hr; [reflexivity|].
    exfalso. apply (Hwell l Hin). exists e'.
    eapply parse_error_malformed; [exact Hl|].
    unfold is_parse_error. now rewrite Hr.
Qed.

Lemma malformed_line_fails_witness :
  interpret_dsl demo_logits ("sort" ++ nl ++ "slice 1;2" ++ nl ++ "sort +")
  = Raise (UnpackError 1).
Proof.
  apply (malformed_line_fails demo_logits
           ("sort" ++ nl ++ "slice 1;2" ++ nl ++ "sort +")
           ["sort"] "slice 1;2" ["sort +"] (UnpackError 1)).
  - reflexivity.
  - split; [reflexivity|]. intros logits. reflexivity.
Defined.

(** ** Decimal literals of natural numbers *)

Lemma string_of_uint_no_space d : no_space (NilEmpty.string_of_uint d) = true.
Proof. induction d; simpl; auto. Qed.

Lemma string_of_uint_no_colon d :
  has_char ":" (NilEmpty.string_of_uint d) = false.
Proof. induction d; simpl; auto. Qed.

Lemma to_uint_nonnil k : Nat.to_uint k <> Decimal.Nil.
Proof.
  rewrite <- (DecimalNat.Unsigned.of_to k) at 1.
  rewrite DecimalNat.Unsigned.to_of. apply DecimalFacts.unorm_nonnil.
Qed.

Lemma str_of_nat_token k : is_token (str_of_nat k) = true.
Proof.
  unfold str_of_nat, is_token.
  pose proof (to_uint_nonnil k) as Hk.
  pose proof (string_of_uint_no_space (Nat.to_uint k)) as Hs.
  destruct (Nat.to_uint k); [congruence | exact Hs ..].
Qed.

Lemma strip_token t : is_token t = true -> strip t = t.
Proof.
  intros Ht. destruct t as [|c t]; [discriminate|].
  simpl in Ht. apply andb_true_iff in Ht as [Hc Ht].
  apply negb_true_iff in Hc.
  assert (Hl : lstrip (String c t) = String c t) by (simpl; now rewrite Hc).
  unfold strip. rewrite Hl. apply rstrip_no_space.
  simpl. now rewrite Hc.
Qed.

Lemma digits_value_digit c s acc b d :
  digit_of c = Some d ->
  digits_value (String c s) acc b = digits_value s (10 * acc + d)%Z true.
Proof. intros H. cbn [digits_value]. now rewrite H. Qed.

Lemma digits_value_uint d : forall acc,
  digits_value (NilEmpty.string_of_uint d) (Z.of_nat acc) true
  = Some (Z.of_nat (Nat.of_uint_acc d acc)).
Proof.
  induction d; intros acc;
    cbn [NilEmpty.string_of_uint Nat.of_uint_acc]; [reflexivity | ..];
    erewrite digits_value_digit by reflexivity;
    rewrite <- IHd; f_equal; rewrite Nat.tail_mul_spec;
    match goal with
    | |- context [Z.of_nat (nat_of_ascii ?c - 48)] =>
        let v := eval vm_compute in (Z.of_nat (nat_of_ascii c - 48)) in
        change (Z.of_nat (nat_of_ascii c - 48)) with v
    end; lia.
Qed.

Lemma py_int_str_of_nat k : py_int (str_of_nat k) = Some (Z.of_nat k).
Proof.
  unfold py_int. rewrite strip_token by apply str_of_nat_token.
  rewrite <- (DecimalNat.Unsigned.of_to k) at 2.
  unfold str_of_nat, Nat.of_uint.
  pose proof (to_uint_nonnil k) as Hk.
  destruct (Nat.to_uint k) as [|d|d|d|d|d|d|d|d|d|d]; [congruence | ..];
    cbn [NilEmpty.string_of_uint Nat.of_uint_acc];
    erewrite digits_value_digit by reflexivity;
    rewrite <- digits_value_uint; reflexivity.
Qed.

Lemma slice_to_line logits k :
  interpret_dsl logits ("slice :" ++ str_of_nat k)
  = slice_logits logits None (Some (Z.of_nat k)).
Proof.
  pose proof (str_of_nat_token k) as Hk.
  assert (Harg : is_token (":" ++ str_of_nat k) = true).
  { simpl. now apply is_token_no_space. }
  rewrite interpret_dsl_line.
  - unfold exec_command.
    change ("slice :" ++ str_of_nat k)
      with ("slice" ++ String " " (":" ++ str_of_nat k)).
    rewrite (split_ws_token_space "slice") by reflexivity.
    rewrite split_ws_token by exact Harg.
    unfold exec_parts. simpl String.eqb. cbv iota.
    change (":" ++ str_of_nat k) with (EmptyString ++ String ":" (str_of_nat k)).
    rewrite split_on_app.
    rewrite (split_on_absent ":" (str_of_nat k)) by apply string_of_uint_no_colon.
    simpl. unfold optional_int, int_literal.
    rewrite py_int_str_of_nat.
    destruct (str_of_nat k); [discriminate | reflexivity].
  - rewrite has_char_app. simpl.
    now rewrite (no_space_has_char newline) by (auto using is_token_no_space).
  - now apply (strip_app_token "lice :" (str_of_nat k) "s").
  - discriminate.
Qed.

(** ** Top-k (C2) *)

Lemma sliced_none logits s b :
  (b <= s)%nat ->
  map (fun '(i, x) => if in_range 0 (Z.of_nat b) i then x else neg_inf)
      (combine (seq s (List.length logits)) logits)
  = full_neg_inf (List.length logits).
Proof.
  unfold full_neg_inf. revert s.
  induction logits as [|x l IH]; intros s Hb; simpl; [reflexivity|].
  rewrite IH by lia. unfold in_range.
  replace (Z.of_nat s <? Z.of_nat b)%Z with false by (symmetry; apply Z.ltb_ge; lia).
  now rewrite andb_false_r.
Qed.

Lemma sliced_firstn logits : forall s k,
  map (fun '(i, x) => if in_range 0 (Z.of_nat (s + k)) i then x else neg_inf)
      (combine (seq s (List.length logits)) logits)
  = (firstn k logits ++ full_neg_inf (List.length logits - k))%list.
Proof.
  induction logits as [|x l IH]; intros s k; [now destruct k|].
  destruct k as [|k].
  - rewrite sliced_none by lia. reflexivity.
  - simpl. replace (s + S k)%nat with (S s + k)%nat by lia.
    rewrite IH. unfold in_range.
    replace (0 <=? Z.of_nat s)%Z with true by (symmetry; apply Z.leb_le; lia).
    replace (Z.of_nat s <? Z.of_nat (S s + k))%Z with true
      by (symmetry; apply Z.ltb_lt; lia).
    reflexivity.
Qed.

Lemma sliced_prefix logits k :
  sliced logits 0 (Z.of_nat k)
  = (firstn k logits ++ full_neg_inf (List.length logits - k))%list.
Proof. apply (sliced_firstn logits 0 k). Qed.

Lemma StronglySorted_app_inv {A} (R : A -> A -> Prop) (a b : list A) :
  StronglySorted R (a ++ b) ->
  StronglySorted R a /\ forall x y, In x a -> In y b -> R x y.
Proof.
  induction a as [|h a IH]; simpl; intros H.
  - split; [constructor | intros x y []].
  - apply StronglySorted_inv in H as [Hs Hall].
    destruct (IH Hs) as [IHs IHr].
    apply Forall_app in Hall as [Ha Hb]. split.
    + now constructor.
    + intros x y [<- | Hx] Hy; [|now apply IHr].
      rewrite Forall_forall in Hb. now apply Hb.
Qed.

(** The literals of the notebook denote the constants of [demo_logits]. *)
Lemma demo_logits_literals :
  map py_float ["0.1"; "2.3"; "1.1"; "0.7"; "-1.0"] = map Some demo_logits.
Proof. vm_compute. reflexivity. Qed.

(** C2. For [0 < k <= N], the program [sort -], [slice :k] returns the
    [k] largest input values in descending order (for the order of
    [np.sort]) followed by [N - k] entries [-inf]; on the notebook's
    vector [[0.1, 2.3, 1.1, 0.7, -1.0]] the program ["sort\nslice :3"]
    returns [[2.3, 1.1, 0.7, -inf, -inf]]. *)
Theorem top_k_spec :
  (forall logits k, (0 < k <= List.length logits)%nat ->
     exists top rest,
       interpret_dsl logits ("sort -" ++ nl ++ "slice :" ++ str_of_nat k)
       = Ok (top ++ full_neg_inf (List.length logits - k))%list
       /\ List.length top = k
       /\ Permutation logits (top ++ rest)%list
       /\ descending top
       /\ (forall x y, In x top -> In y rest -> np_le y x = true)
       /\ (forall x y, In x top -> In y rest ->
             is_nan x = false -> is_nan y = false -> fge x y = true))
  /\ interpret_dsl demo_logits top_3
     = Ok [f_2_3; f_1_1; f_0_7; neg_inf; neg_inf].
Proof.
  split; [|reflexivity].
  intros logits k [Hk0 HkN].
  set (sorted := rev (np_sort logits)).
  assert (Hlen : List.length sorted = List.length logits).
  { unfold sorted. now rewrite length_rev, np_sort_length. }
  exists (firstn k sorted), (skipn k sorted).
  pose proof (np_sort_descending logits) as Hd. fold sorted in Hd.
  unfold descending in Hd. rewrite <- (firstn_skipn k sorted) in Hd.
  apply StronglySorted_app_inv in Hd as [Htop Hrest].
  split; [|split; [|split; [|split; [|split]]]].
  - rewrite interpret_dsl_app.
    change (interpret_dsl logits "sort -") with (Ok sorted). cbn [bind].
    rewrite slice_to_line, slice_logits_eq. cbv zeta.
    unfold start_of, stop_of. rewrite Hlen.
    replace ((0 <? 0) || (Z.of_nat k >? Z.of_nat (List.length logits))
             || (0 >=? Z.of_nat k))%Z with false by (symmetry; lia).
    now rewrite sliced_prefix, Hlen.
  - rewrite length_firstn. lia.
  - rewrite firstn_skipn. apply rev_np_sort_perm.
  - exact Htop.
  - intros x y Hx Hy. now apply Hrest.
  - intros x y Hx Hy Hnx Hny. unfold fge. fold (fle y x).
    rewrite <- np_le_fle by assumption. now apply Hrest.
Qed.

Lemma top_k_spec_witness :
  exists top rest,
    interpret_dsl demo_logits ("sort -" ++ nl ++ "slice :" ++ str_of_nat 2)
    = Ok (top ++ full_neg_inf (List.length demo_logits - 2))%list
    /\ List.length top = 2%nat
    /\ Permutation demo_logits (top ++ rest)%list
    /\ descending top
    /\ (forall x y, In x top -> In y rest -> np_le y x = true)
    /\ (forall x y, In x top -> In y rest ->
          is_nan x = false -> is_nan y = false -> fge x y = true).
Proof.
  apply (proj1 top_k_spec demo_logits 2%nat). simpl. lia.
Defined.

(** * Further properties of the interpreter *)

(** ** What [parse_dsl] returns *)

Lemma split_on_no_sep c s :
  Forall (fun p => has_char c p = false) (split_on c s).
Proof.
  induction s as [|x s IH]; simpl; [now repeat constructor|].
  destruct (Ascii.eqb x c) eqn:Hx; [now constructor|].
  destruct (split_on c s) as [|p ps]; [repeat constructor; simpl; now rewrite Hx|].
  inversion IH; subst. constructor; [simpl; now rewrite Hx | assumption].
Qed.

Lemma lstrip_has_char c s : has_char c s = false -> has_char c (lstrip s) = false.
Proof.
  induction s as [|x s IH]; simpl; [auto|].
  intros H. destruct (isspace x); [|exact H].
  apply orb_false_iff in H as [_ H]. auto.
Qed.

Lemma rstrip_has_char c s : has_char c s = false -> has_char c (rstrip s) = false.
Proof.
  induction s as [|x s IH]; simpl; [auto|].
  intros H. apply orb_false_iff in H as [Hx Hs]. specialize (IH Hs).
  destruct (rstrip s) as [|y r].
  - destruct (isspace x); simpl; [reflexivity | now rewrite Hx].
  - simpl in *. now rewrite Hx.
Qed.

Lemma lstrip_idem s : lstrip (lstrip s) = lstrip s.
Proof.
  induction s as [|x s IH]; simpl; [reflexivity|].
  destruct (isspace x) eqn:Hx; [exact IH | simpl; now rewrite Hx].
Qed.

Lemma rstrip_idem s : rstrip (rstrip s) = rstrip s.
Proof.
  induction s as [|x s IH]; simpl; [reflexivity|].
  destruct (rstrip s) as [|y r] eqn:Hr.
  - destruct (isspace x) eqn:Hx; simpl; [reflexivity | now rewrite Hx].
  - change (rstrip (String x (String y r))) with
      (match rstrip (String y r) with
       | EmptyString => if isspace x then EmptyString else String x EmptyString
       | r' => String x r'
       end).
    now rewrite IH.
Qed.

(** Stripping on the right keeps a head that is not whitespace. *)
Lemma lstrip_rstrip s : lstrip s = s -> lstrip (rstrip s) = rstrip s.
Proof.
  destruct s as [|x s]; [reflexivity|]. intros H.
  assert (Hx : isspace x = false).
  { pose proof (lstrip_head (String x s)) as Hh. now rewrite H in Hh. }
  cbn [rstrip]. destruct (rstrip s); [rewrite Hx|]; cbn [lstrip]; now rewrite Hx.
Qed.

Lemma strip_idem s : strip (strip s) = strip s.
Proof.
  unfold strip. rewrite (lstrip_rstrip (lstrip s)) by apply lstrip_idem.
  apply rstrip_idem.
Qed.

Lemma split_fields_no_space_fst s : no_space (fst (split_fields s)) = true.
Proof.
  induction s as [|x s IH]; simpl; [reflexivity|].
  destruct (split_fields s) as [f fs]. simpl in IH.
  destruct (isspace x) eqn:Hx; simpl; [reflexivity | now rewrite Hx].
Qed.

(** A stripped line that is not empty starts with a field. *)
Lemma split_ws_stripped s :
  s <> EmptyString -> strip s = s ->
  exists cmd args, split_ws s = cmd :: args /\ is_token cmd = true.
Proof.
  intros Hne Hs. destruct s as [|x s]; [contradiction|].
  assert (Hx : isspace x = false).
  { destruct (isspace x) eqn:Hx; [|reflexivity]. exfalso.
    pose proof (lstrip_head (String x s)) as Hh.
    unfold strip in Hs.
    destruct (lstrip (String x s)) as [|y t] eqn:El.
    - simpl in Hs. discriminate.
    - assert (Hy : y = x).
      { simpl in Hs. destruct (rstrip t); [destruct (isspace y)|]; congruence. }
      congruence. }
  unfold split_ws. cbn [split_fields]. rewrite Hx.
  pose proof (split_fields_no_space_fst s) as Hf.
  destruct (split_fields s) as [f fs]. cbn [fst push_field] in *.
  exists (String x f), fs. split; [reflexivity|].
  cbn [is_token no_space]. now rewrite Hx, Hf.
Qed.

Lemma parse_dsl_In text line :
  In line (parse_dsl text) ->
  exists piece, In piece (split_on newline text)
                /\ line = strip piece /\ line <> EmptyString.
Proof.
  unfold parse_dsl. intros H. apply in_map_iff in H as (piece & <- & Hin).
  apply filter_In in Hin as [Hin Hb]. exists piece.
  split; [exact Hin|]. split; [reflexivity|].
  apply negb_true_iff, String.eqb_neq in Hb. exact Hb.
Qed.

Lemma parse_dsl_command_shape (text line : string) :
  In line (parse_dsl text) ->
  line <> EmptyString
  /\ strip line = line
  /\ has_char newline line = false
  /\ exists cmd args, split_ws line = cmd :: args /\ is_token cmd = true.
Proof.
  intros H. destruct (parse_dsl_In _ _ H) as (piece & Hin & -> & Hne).
  assert (Hs : strip (strip piece) = strip piece) by apply strip_idem.
  split; [exact Hne|]. split; [exact Hs|]. split.
  - unfold strip. apply rstrip_has_char, lstrip_has_char.
    pose proof (split_on_no_sep newline text) as Hall.
    rewrite Forall_forall in Hall. now apply Hall.
  - now apply split_ws_stripped.
Qed.

(** X1. Every command that [parse_dsl] returns is non-empty, has no
    newline and nothing left to strip, and begins with a field; so
    [parts[0]] in [interpret_dsl] is always defined. *)
Theorem parse_dsl_commands (text line : string) :
  In line (parse_dsl text) ->
  line <> EmptyString
  /\ strip line = line
  /\ has_char newline line = false
  /\ exists cmd args,
       split_ws line = cmd :: args /\ is_token cmd = true
       /\ forall logits, exec_command logits line = exec_parts logits (cmd :: args).
Proof.
  intros H.
  destruct (parse_dsl_command_shape _ _ H)
    as (Hne & Hs & Hn & cmd & args & Hsplit & Htok).
  repeat split; try assumption.
  exists cmd, args. repeat split; try assumption.
  intros logits. unfold exec_command. now rewrite Hsplit.
Qed.

Lemma parse_dsl_commands_witness :
  "slice :3" <> EmptyString
  /\ strip "slice :3" = "slice :3"
  /\ has_char newline "slice :3" = false
  /\ exists cmd args,
       split_ws "slice :3" = cmd :: args /\ is_token cmd = true
       /\ forall logits, exec_command logits "slice :3" = exec_parts logits (cmd :: args).
Proof.
  apply (parse_dsl_commands top_3 "slice :3"). simpl. auto.
Defined.

(** X2. Joining the commands of a text with newlines and parsing again
    gives the same commands, and the same interpretation. *)
Theorem parse_dsl_round_trip (text : string) :
  parse_dsl (join_lines (parse_dsl text)) = parse_dsl text
  /\ forall logits,
       interpret_dsl logits (join_lines (parse_dsl text))
       = interpret_dsl logits text.
Proof.
  assert (H : parse_dsl (join_lines (parse_dsl text)) = parse_dsl text).
  { rewrite parse_dsl_join.
    assert (Hall : forall l, In l (parse_dsl text) -> parse_dsl l = [l]).
    { intros l Hl. destruct (parse_dsl_command_shape _ _ Hl) as (Hne & Hs & Hn & _).
      now apply parse_dsl_line. }
    induction (parse_dsl text) as [|l ls IH]; [reflexivity|].
    simpl. rewrite Hall by (simpl; auto). simpl. f_equal.
    apply IH. intros l' Hl'. apply Hall. simpl. auto. }
  split; [exact H|]. intros logits. unfold interpret_dsl. now rewrite H.
Qed.

(** ** Programs as sequences of lines *)

(** X3. A text made of two texts joined by a newline is interpreted as
    the first text followed by the second on its result; when the first
    fails its exception is the result and the second is not run. *)
Theorem interpret_dsl_sequence (logits : vector) (a b : string) :
  interpret_dsl logits (a ++ nl ++ b)
  = match interpret_dsl logits a with
    | Ok mid => interpret_dsl mid b
    | Raise e => Raise e
    end.
Proof.
  unfold interpret_dsl. rewrite parse_dsl_app, run_commands_app.
  reflexivity.
Qed.

Lemma run_commands_first_failure commands : forall logits e,
  run_commands logits commands = Raise e ->
  exists before line after mid,
    commands = (before ++ line :: after)%list
    /\ run_commands logits before = Ok mid
    /\ exec_command mid line = Raise e.
Proof.
  induction commands as [|c cs IH]; intros logits e; simpl; [discriminate|].
  destruct (exec_command logits c) as [mid|e'] eqn:Hc; simpl.
  - intros H. destruct (IH _ _ H) as (before & line & after & mid' & -> & Hb & Hl).
    exists (c :: before), line, after, mid'. simpl. rewrite Hc. simpl. auto.
  - intros H. injection H as <-. exists [], c, cs, logits. auto.
Qed.

(** X4. A run fails with [e] exactly when some line raises [e] on the
    vector that the lines before it have produced without error; the
    lines after it play no part. *)
Theorem interpret_dsl_failure (logits : vector) (text : string) (e : exn) :
  interpret_dsl logits text = Raise e
  <-> exists before line after mid,
        parse_dsl text = (before ++ line :: after)%list
        /\ run_commands logits before = Ok mid
        /\ exec_command mid line = Raise e.
Proof.
  unfold interpret_dsl. split.
  - apply run_commands_first_failure.
  - intros (before & line & after & mid & -> & Hb & Hl).
    rewrite run_commands_app, Hb. simpl. now rewrite Hl.
Qed.

Lemma exec_parts_kind logits parts out :
  exec_parts logits parts = Ok out ->
  Permutation logits out \/ entrywise_masked logits out.
Proof.
  unfold exec_parts. destruct parts as [|cmd args]; [discriminate|].
  destruct (cmd =? "sort").
  { unfold sort_logits. intros H. left.
    destruct (_ =? "-"); [injection H as <-; apply rev_np_sort_perm|].
    destruct (_ =? "+"); [injection H as <-; apply np_sort_perm | discriminate]. }
  destruct (cmd =? "slice").
  { destruct args as [|arg args]; [discriminate|].
    destruct (split_on ":" arg) as [|n [|m [|? ?]]]; try discriminate.
    destruct (optional_int n); [simpl | discriminate].
    destruct (optional_int m); [simpl | discriminate].
    intros H. right. eapply slice_logits_entrywise, H. }
  destruct (cmd =? "threshold"); [|discriminate].
  destruct args as [|op [|value args]]; try discriminate.
  destruct (float_literal value); [simpl | discriminate].
  intros H. right. eapply threshold_logits_entrywise, H.
Qed.

Lemma masks_more_In before after x :
  masks_more before after -> In x after -> x = neg_inf \/ In x before.
Proof.
  intros (_ & Hsub & _) Hin.
  destruct (float_eq_dec x neg_inf) as [-> | Hx]; [now left | right].
  specialize (Hsub x). rewrite !count_occ_unmasked in Hsub.
  assert (Hn : is_neg_inf x = false).
  { destruct (is_neg_inf x) eqn:E; [|reflexivity].
    apply is_neg_inf_eq in E. contradiction. }
  rewrite Hn in Hsub.
  apply (count_occ_In float_eq_dec) in Hin.
  apply (count_occ_In float_eq_dec). lia.
Qed.

(** X5. A command that succeeds either permutes the vector ([sort]) or
    keeps every entry in place or overwritten with [-inf] ([slice],
    [threshold]); so every entry of the result of a program is [-inf] or
    a value of the input: no value is ever computed or altered. *)
Theorem no_new_values :
  (forall logits line out,
      exec_command logits line = Ok out ->
      Permutation logits out \/ entrywise_masked logits out)
  /\ (forall logits text out x,
      interpret_dsl logits text = Ok out ->
      In x out -> x = neg_inf \/ In x logits).
Proof.
  split.
  - intros logits line out. apply exec_parts_kind.
  - intros logits text out x H. apply masks_more_In.
    eapply run_commands_masks_more, H.
Qed.

Lemma no_new_values_witness : f_2_3 = neg_inf \/ In f_2_3 demo_logits.
Proof.
  apply (proj2 no_new_values demo_logits top_3
           [f_2_3; f_1_1; f_0_7; neg_inf; neg_inf] f_2_3).
  - reflexivity.
  - simpl. auto.
Defined.

(** ** Command lines built from fields *)

Lemma rstrip_app_fixed a b :
  rstrip b = b -> b <> EmptyString -> rstrip (a ++ b) = a ++ b.
Proof.
  intros Hb Hne. induction a as [|c a IH]; simpl; [exact Hb|].
  rewrite IH. destruct (a ++ b) eqn:E; [|reflexivity].
  destruct a; simpl in E; [contradiction | discriminate].
Qed.

Lemma join_fields_cons t t' ts :
  join_fields (t :: t' :: ts) = t ++ String " " (join_fields (t' :: ts)).
Proof. reflexivity. Qed.

Lemma join_fields_shape ts :
  ts <> [] -> Forall (fun t => is_token t = true) ts ->
  split_ws (join_fields ts) = ts
  /\ has_char newline (join_fields ts) = false
  /\ rstrip (join_fields ts) = join_fields ts
  /\ join_fields ts <> EmptyString.
Proof.
  intros Hne Hall. induction Hall as [|t ts Ht Hts IH]; [contradiction|].
  destruct ts as [|t' ts].
  - simpl. split; [now apply split_ws_token|].
    split; [apply no_space_has_char; auto using is_token_no_space|].
    split; [now apply rstrip_no_space, is_token_no_space|].
    destruct t; [discriminate | discriminate].
  - destruct IH as (Hs & Hn & Hr & He); [discriminate|].
    rewrite join_fields_cons. split; [|split; [|split]].
    + rewrite split_ws_token_space by auto. now rewrite Hs.
    + rewrite has_char_app. cbn [has_char]. rewrite Hn.
      rewrite (no_space_has_char newline) by auto using is_token_no_space.
      reflexivity.
    + change (t ++ String " " (join_fields (t' :: ts)))
        with (t ++ (String " " EmptyString ++ join_fields (t' :: ts))).
      rewrite <- append_assoc. now apply rstrip_app_fixed.
    + destruct t; discriminate.
Qed.

Lemma join_fields_strip ts :
  ts <> [] -> Forall (fun t => is_token t = true) ts ->
  strip (join_fields ts) = join_fields ts.
Proof.
  intros Hne Hall.
  destruct (join_fields_shape ts Hne Hall) as (_ & _ & Hr & _).
  unfold strip.
  assert (Hl : lstrip (join_fields ts) = join_fields ts).
  { destruct Hall as [|t ts Ht Hts]; [contradiction|].
    destruct t as [|c t]; [discriminate|].
    cbn [is_token no_space] in Ht. apply andb_true_iff in Ht as [Hc _].
    apply negb_true_iff in Hc.
    destruct ts; cbn [join_fields append lstrip]; now rewrite Hc. }
  now rewrite Hl.
Qed.

(** X6. Fields joined by single spaces are split back into the same
    fields, and the line they form is executed on exactly these fields:
    [" ".join(fields).split() == fields] for fields without whitespace. *)
Theorem join_fields_round_trip (fields : list string) :
  fields <> [] -> Forall (fun t => is_token t = true) fields ->
  split_ws (join_fields fields) = fields
  /\ parse_dsl (join_fields fields) = [join_fields fields]
  /\ forall logits,
       interpret_dsl logits (join_fields fields) = exec_parts logits fields.
Proof.
  intros Hne Hall.
  destruct (join_fields_shape fields Hne Hall) as (Hs & Hn & Hr & He).
  pose proof (join_fields_strip fields Hne Hall) as Hstrip.
  split; [exact Hs|]. split; [now apply parse_dsl_line|].
  intros logits. rewrite interpret_dsl_line by assumption.
  unfold exec_command. now rewrite Hs.
Qed.

Lemma join_fields_round_trip_witness :
  split_ws (join_fields ["threshold"; "<="; "0.5"]) = ["threshold"; "<="; "0.5"]
  /\ parse_dsl (join_fields ["threshold"; "<="; "0.5"])
     = [join_fields ["threshold"; "<="; "0.5"]]
  /\ forall logits,
       interpret_dsl logits (join_fields ["threshold"; "<="; "0.5"])
       = exec_parts logits ["threshold"; "<="; "0.5"].
Proof.
  apply (join_fields_round_trip ["threshold"; "<="; "0.5"]).
  - discriminate.
  - repeat constructor.
Defined.

Lemma interpret_fields logits fields :
  fields <> [] -> Forall (fun t => is_token t = true) fields ->
  interpret_dsl logits (join_fields fields) = exec_parts logits fields.
Proof.
  intros Hne Hall.
  destruct (join_fields_shape fields Hne Hall) as (Hs & Hn & Hr & He).
  rewrite interpret_dsl_line; auto using join_fields_strip.
  unfold exec_command. now rewrite Hs.
Qed.

Lemma is_comparator_In op : is_comparator op = true <-> In op comparators.
Proof.
  unfold is_comparator. rewrite existsb_exists. split.
  - intros (x & Hx & Heq). apply String.eqb_eq in Heq. now subst.
  - intros H. exists op. split; [exact H | apply String.eqb_refl].
Qed.

(** X7. The outcome of a [threshold] line with operator field [op] and
    value field [value]: the value is read first, so a value that is not
    a float literal raises the float error whatever [op] is; then an
    [op] outside [<], [>], [<=], [>=] raises the operator error; otherwise
    the entries that satisfy the comparison are masked. *)
Theorem threshold_line_outcome (logits : vector) (op value : string) :
  is_token op = true -> is_token value = true ->
  interpret_dsl logits (join_fields ["threshold"; op; value])
  = match py_float value with
    | None => Raise (FloatLiteralError value)
    | Some p =>
        if is_comparator op
        then Ok (mask_where (fun v => satisfies op v p) logits)
        else Raise (InvalidOperator op)
    end.
Proof.
  intros Hop Hvalue.
  rewrite interpret_fields by (try discriminate; now repeat constructor).
  rewrite exec_parts_threshold. unfold float_literal.
  destruct (py_float value) as [p|]; [cbn [bind] | reflexivity].
  destruct (is_comparator op) eqn:Hc.
  - apply threshold_logits_eq. now apply is_comparator_In.
  - apply threshold_logits_invalid. intros Hin.
    apply is_comparator_In in Hin. congruence.
Qed.

Lemma threshold_line_outcome_witness :
  interpret_dsl demo_logits (join_fields ["threshold"; "=="; "1e"])
  = Raise (FloatLiteralError "1e").
Proof.
  apply (threshold_line_outcome demo_logits "==" "1e"); reflexivity.
Defined.

(** X8. A command that lacks an argument it reads raises [IndexError]:
    [slice] without argument, [threshold] without value, even when the
    operator given is not a comparator. *)
Theorem missing_argument (logits : vector) :
  interpret_dsl logits "slice" = Raise IndexError
  /\ interpret_dsl logits "threshold" = Raise IndexError
  /\ forall op, is_token op = true ->
       interpret_dsl logits (join_fields ["threshold"; op]) = Raise IndexError.
Proof.
  split; [reflexivity|]. split; [reflexivity|].
  intros op Hop.
  rewrite interpret_fields by (try discriminate; now repeat constructor).
  reflexivity.
Qed.

Lemma missing_argument_witness :
  interpret_dsl demo_logits (join_fields ["threshold"; "=>"]) = Raise IndexError.
Proof.
  apply (proj2 (proj2 (missing_argument demo_logits)) "=>"). reflexivity.
Defined.

(** ** Slices as windows *)

Lemma sliced_window logits a b :
  (a <= b <= List.length logits)%nat ->
  sliced logits (Z.of_nat a) (Z.of_nat b)
  = (full_neg_inf a ++ firstn (b - a) (skipn a logits)
     ++ full_neg_inf (List.length logits - b))%list.
Proof.
  intros Hab. apply nth_error_ext. intros i.
  rewrite sliced_nth_error. unfold full_neg_inf, in_range.
  assert (Hlen : List.length (firstn (b - a) (skipn a logits)) = (b - a)%nat).
  { rewrite length_firstn, length_skipn. lia. }
  destruct (Nat.lt_ge_cases i a) as [Hia | Hia].
  { rewrite nth_error_app1 by (rewrite repeat_length; lia).
    rewrite nth_error_repeat by lia.
    destruct (nth_error logits i) eqn:Hi;
      [|apply nth_error_None in Hi; lia].
    simpl. replace (Z.of_nat a <=? Z.of_nat i)%Z with false
      by (symmetry; apply Z.leb_gt; lia). reflexivity. }
  rewrite nth_error_app2 by (rewrite repeat_length; lia).
  rewrite repeat_length.
  destruct (Nat.lt_ge_cases i b) as [Hib | Hib].
  { rewrite nth_error_app1 by lia.
    rewrite nth_error_firstn.
    replace (i - a <? b - a)%nat with true by (symmetry; apply Nat.ltb_lt; lia).
    rewrite nth_error_skipn. replace (a + (i - a))%nat with i by lia.
    destruct (nth_error logits i); [simpl | reflexivity].
    replace (Z.of_nat a <=? Z.of_nat i)%Z with true
      by (symmetry; apply Z.leb_le; lia).
    replace (Z.of_nat i <? Z.of_nat b)%Z with true
      by (symmetry; apply Z.ltb_lt; lia).
    reflexivity. }
  rewrite nth_error_app2 by lia. rewrite Hlen.
  destruct (Nat.lt_ge_cases i (List.length logits)) as [HiN | HiN].
  - rewrite nth_error_repeat by lia.
    destruct (nth_error logits i) eqn:Hi;
      [|apply nth_error_None in Hi; lia].
    simpl. replace (Z.of_nat i <? Z.of_nat b)%Z with false
      by (symmetry; apply Z.ltb_ge; lia).
    now rewrite andb_false_r.
  - replace (nth_error logits i) with (@None float)
      by (symmetry; apply nth_error_None; lia).
    symmetry. apply nth_error_None. rewrite repeat_length. lia.
Qed.

Lemma unmasked_full_neg_inf n : unmasked (full_neg_inf n) = [].
Proof. induction n as [|n IH]; simpl; auto. Qed.

Lemma unmasked_app (a b : vector) :
  unmasked (a ++ b)%list = (unmasked a ++ unmasked b)%list.
Proof. apply filter_app. Qed.

Lemma unmasked_length_le l : (List.length (unmasked l) <= List.length l)%nat.
Proof.
  unfold unmasked. induction l as [|x l IH]; simpl; [lia|].
  destruct (negb (is_neg_inf x)); simpl; lia.
Qed.

(** X9. For bounds [a < b <= N], [slice a:b] returns [a] entries [-inf],
    then the entries of the input at positions [a] to [b - 1], then
    [N - b] entries [-inf]; so at most [b - a] entries stay unmasked.
    With the end left out, [slice a:] masks the first [a] entries and
    keeps all the others. *)
Theorem slice_window (logits : vector) (a b : nat) :
  (a < b <= List.length logits)%nat ->
  slice_logits logits (Some (Z.of_nat a)) (Some (Z.of_nat b))
  = Ok (full_neg_inf a ++ firstn (b - a) (skipn a logits)
        ++ full_neg_inf (List.length logits - b))%list
  /\ (forall out,
        slice_logits logits (Some (Z.of_nat a)) (Some (Z.of_nat b)) = Ok out ->
        (List.length (unmasked out) <= b - a)%nat)
  /\ (b = List.length logits ->
      slice_logits logits (Some (Z.of_nat a)) None
      = Ok (full_neg_inf a ++ skipn a logits)%list).
Proof.
  intros Hab.
  assert (Heq : forall m, stop_of (List.length logits) m = Z.of_nat b ->
            slice_logits logits (Some (Z.of_nat a)) m
            = Ok (full_neg_inf a ++ firstn (b - a) (skipn a logits)
                  ++ full_neg_inf (List.length logits - b))%list).
  { intros m Hm. rewrite slice_logits_eq. cbv zeta. rewrite Hm.
    unfold start_of.
    replace ((Z.of_nat a <? 0) || (Z.of_nat b >? Z.of_nat (List.length logits))
             || (Z.of_nat a >=? Z.of_nat b))%Z with false by (symmetry; lia).
    rewrite sliced_window by lia. reflexivity. }
  split; [now apply Heq|]. split.
  - intros out. rewrite Heq by reflexivity. intros H. injection H as <-.
    rewrite !unmasked_app, !unmasked_full_neg_inf, app_nil_r. simpl.
    etransitivity; [apply unmasked_length_le|].
    rewrite length_firstn. lia.
  - intros ->. rewrite Heq by reflexivity.
    rewrite Nat.sub_diag. unfold full_neg_inf at 2. simpl. rewrite app_nil_r.
    rewrite firstn_all2 by (rewrite length_skipn; lia). reflexivity.
Qed.

Lemma slice_window_witness :
  slice_logits demo_logits (Some 1%Z) (Some 3%Z)
  = Ok [neg_inf; f_2_3; f_1_1; neg_inf; neg_inf].
Proof.
  apply (proj1 (slice_window demo_logits 1 3 ltac:(simpl; lia))).
Defined.

(** X10. On the empty vector every [slice] raises the range error,
    whatever its bounds; on any other vector [slice :] returns the
    vector unchanged. *)
Theorem slice_empty_and_full :
  (forall n m, slice_logits [] n m = Raise (InvalidSliceRange (start_of n) (stop_of 0 m) 0))
  /\ (forall logits, logits <> [] -> interpret_dsl logits "slice :" = Ok logits)
  /\ interpret_dsl [] "slice :" = Raise (InvalidSliceRange 0 0 0).
Proof.
  split; [|split; [|reflexivity]].
  - intros n m. rewrite slice_logits_eq. cbv zeta.
    change (List.length (@nil float)) with 0%nat.
    destruct ((start_of n <? 0) || (stop_of 0 m >? Z.of_nat 0)
              || (start_of n >=? stop_of 0 m))%Z eqn:Hc; [reflexivity|].
    exfalso. apply orb_false_iff in Hc as [Hc H3].
    apply orb_false_iff in Hc as [H1 H2].
    apply Z.ltb_ge in H1. rewrite Z.gtb_ltb in H2. apply Z.ltb_ge in H2.
    rewrite Z.geb_leb in H3. apply Z.leb_gt in H3. simpl in H2. lia.
  - intros logits Hne.
    rewrite interpret_dsl_line by (try reflexivity; discriminate).
    change (exec_command logits "slice :") with (slice_logits logits None None).
    rewrite slice_logits_eq. cbv zeta. unfold start_of, stop_of.
    assert (HN : (0 < List.length logits)%nat).
    { destruct logits; [contradiction | simpl; lia]. }
    replace ((0 <? 0) || (Z.of_nat (List.length logits) >? Z.of_nat (List.length logits))
             || (0 >=? Z.of_nat (List.length logits)))%Z with false by (symmetry; lia).
    rewrite sliced_prefix, firstn_all, Nat.sub_diag. simpl.
    now rewrite app_nil_r.
Qed.

Lemma slice_empty_and_full_witness :
  interpret_dsl demo_logits "slice :" = Ok demo_logits.
Proof.
  apply (proj1 (proj2 slice_empty_and_full) demo_logits). discriminate.
Defined.

(** ** Slice bounds written in the text *)



Lemma optional_int_str_of_nat k :
  optional_int (str_of_nat k) = Ok (Some (Z.of_nat k)).
Proof.
  unfold optional_int, int_literal. rewrite py_int_str_of_nat.
  pose proof (str_of_nat_token k) as Hk.
  destruct (str_of_nat k); [discriminate | reflexivity].
Qed.

Lemma str_of_nat_no_colon k : has_char ":" (str_of_nat k) = false.
Proof. apply string_of_uint_no_colon. Qed.

Lemma no_space_app a b :
  no_space a = true -> no_space b = true -> no_space (a ++ b) = true.
Proof.
  intros Ha Hb. induction a as [|c a IH]; simpl in *; [exact Hb|].
  apply andb_true_iff in Ha as [Hc Ha]. now rewrite Hc, IH.
Qed.

Lemma is_token_app a b :
  is_token a = true -> no_space b = true -> is_token (a ++ b) = true.
Proof.
  intros Ha Hb. destruct a as [|c a]; [discriminate|].
  cbn [append is_token]. change (String c (a ++ b)) with (String c a ++ b).
  apply no_space_app; [exact Ha | exact Hb].
Qed.



(** ** How masking steps compose *)

Lemma mask_where_twice c1 c2 l :
  mask_where c2 (mask_where c1 l) = mask_where (fun v => c1 v || c2 v) l.
Proof.
  unfold mask_where. rewrite map_map. apply map_ext. intros v.
  destruct (c1 v); simpl; [now destruct (c2 neg_inf) | reflexivity].
Qed.

Lemma mask_where_ext c1 c2 l :
  (forall v, In v l -> c1 v = c2 v) -> mask_where c1 l = mask_where c2 l.
Proof.
  intros H. unfold mask_where. apply map_ext_in. intros v Hv. now rewrite H.
Qed.

Lemma mask_where_never l : mask_where (fun _ => false) l = l.
Proof. unfold mask_where. apply map_id. Qed.

Lemma sliced_twice l n m n' m' :
  sliced (sliced l n m) n' m'
  = map (fun '(i, x) => if in_range n m i && in_range n' m' i then x else neg_inf)
        (combine (seq 0 (List.length l)) l).
Proof.
  apply nth_error_ext. intros i.
  rewrite sliced_nth_error, sliced_nth_error, nth_error_indexed.
  destruct (nth_error l i); [simpl | reflexivity].
  destruct (in_range n m i), (in_range n' m' i); reflexivity.
Qed.

Lemma sliced_mask_where c l n m :
  sliced (mask_where c l) n m = mask_where c (sliced l n m).
Proof.
  apply nth_error_ext. intros i.
  rewrite sliced_nth_error, !mask_where_nth_error, sliced_nth_error.
  destruct (nth_error l i); [simpl | reflexivity].
  destruct (in_range n m i); [reflexivity | now destruct (c neg_inf)].
Qed.

Lemma slice_logits_ok logits n m out :
  slice_logits logits n m = Ok out ->
  out = sliced logits (start_of n) (stop_of (List.length logits) m)
  /\ forall other, List.length other = List.length logits ->
       slice_logits other n m
       = Ok (sliced other (start_of n) (stop_of (List.length logits) m)).
Proof.
  rewrite slice_logits_eq. cbv zeta.
  destruct (_ || _ || _)%bool eqn:Hc; [discriminate|].
  intros H. injection H as <-. split; [reflexivity|].
  intros other Hlen. rewrite slice_logits_eq. cbv zeta.
  now rewrite Hlen, Hc.
Qed.

Lemma threshold_logits_ok logits op p out :
  threshold_logits logits op p = Ok out ->
  In op comparators /\ out = mask_where (fun v => satisfies op v p) logits.
Proof.
  destruct (in_dec string_dec op comparators) as [Hop | Hop].
  - rewrite threshold_logits_eq by exact Hop.
    intros H. injection H as <-. auto.
  - rewrite threshold_logits_invalid by exact Hop. discriminate.
Qed.

(** X12. Two slices in a row keep the entries that lie in both ranges,
    and give the same vector in either order. *)
Theorem slices_intersect (logits : vector) (n m n' m' : option Z)
    (mid out : vector) :
  slice_logits logits n m = Ok mid ->
  slice_logits mid n' m' = Ok out ->
  (forall i x, nth_error logits i = Some x ->
     nth_error out i
     = Some (if in_range (start_of n) (stop_of (List.length logits) m) i
                && in_range (start_of n') (stop_of (List.length logits) m') i
             then x else neg_inf))
  /\ exists mid', slice_logits logits n' m' = Ok mid'
                  /\ slice_logits mid' n m = Ok out.
Proof.
  intros H1 H2.
  destruct (slice_logits_ok _ _ _ _ H1) as [-> Hany1].
  destruct (slice_logits_ok _ _ _ _ H2) as [-> Hany2].
  rewrite sliced_length in *.
  set (N := List.length logits) in *.
  split.
  - intros i x Hi. rewrite sliced_twice, nth_error_indexed, Hi. reflexivity.
  - exists (sliced logits (start_of n') (stop_of N m')).
    split; [now apply Hany2|].
    rewrite Hany1 by apply sliced_length. f_equal.
    rewrite !sliced_twice. apply map_ext. intros [i x].
    now rewrite andb_comm.
Qed.

Lemma slices_intersect_witness :
  exists mid', slice_logits demo_logits (Some 2%Z) None = Ok mid'
               /\ slice_logits mid' None (Some 4%Z)
                  = Ok [neg_inf; neg_inf; f_1_1; f_0_7; neg_inf].
Proof.
  apply (proj2 (slices_intersect demo_logits None (Some 4%Z) (Some 2%Z) None
                  [f_0_1; f_2_3; f_1_1; f_0_7; neg_inf]
                  [neg_inf; neg_inf; f_1_1; f_0_7; neg_inf]
                  eq_refl eq_refl)).
Defined.

(** X13. Two thresholds in a row mask the entries that satisfy either
    comparison, give the same vector in either order, and a threshold
    applied a second time changes nothing. *)
Theorem thresholds_compose (logits : vector) (op op' : string) (p p' : float)
    (mid out : vector) :
  threshold_logits logits op p = Ok mid ->
  threshold_logits mid op' p' = Ok out ->
  out = mask_where (fun v => satisfies op v p || satisfies op' v p') logits
  /\ (exists mid', threshold_logits logits op' p' = Ok mid'
                   /\ threshold_logits mid' op p = Ok out)
  /\ threshold_logits mid op p = Ok mid.
Proof.
  intros H1 H2.
  destruct (threshold_logits_ok _ _ _ _ H1) as [Hop ->].
  destruct (threshold_logits_ok _ _ _ _ H2) as [Hop' ->].
  split; [apply mask_where_twice|]. split.
  - exists (mask_where (fun v => satisfies op' v p') logits).
    split; [now apply threshold_logits_eq|].
    rewrite threshold_logits_eq by exact Hop. f_equal.
    rewrite !mask_where_twice. apply mask_where_ext.
    intros v _. apply orb_comm.
  - rewrite threshold_logits_eq by exact Hop. f_equal.
    rewrite mask_where_twice. apply mask_where_ext.
    intros v _. apply orb_diag.
Qed.

Lemma thresholds_compose_witness :
  threshold_logits [neg_inf; f_2_3; f_1_1; neg_inf; neg_inf] "<" f_1_0
  = Ok [neg_inf; f_2_3; f_1_1; neg_inf; neg_inf].
Proof.
  apply (proj2 (proj2 (thresholds_compose demo_logits "<" ">" f_1_0 f_2_3
                         [neg_inf; f_2_3; f_1_1; neg_inf; neg_inf]
                         [neg_inf; f_2_3; f_1_1; neg_inf; neg_inf]
                         eq_refl eq_refl))).
Defined.

(** X14. A slice and a threshold give the same vector in either order. *)
Theorem slice_threshold_commute (logits : vector) (n m : option Z)
    (op : string) (p : float) (out : vector) :
  (exists mid, slice_logits logits n m = Ok mid
               /\ threshold_logits mid op p = Ok out)
  <-> (exists mid, threshold_logits logits op p = Ok mid
                   /\ slice_logits mid n m = Ok out).
Proof.
  split.
  - intros (mid & H1 & H2).
    destruct (slice_logits_ok _ _ _ _ H1) as [-> Hany].
    destruct (threshold_logits_ok _ _ _ _ H2) as [Hop ->].
    exists (mask_where (fun v => satisfies op v p) logits).
    split; [now apply threshold_logits_eq|].
    rewrite Hany by apply mask_where_length.
    now rewrite sliced_mask_where.
  - intros (mid & H1 & H2).
    destruct (threshold_logits_ok _ _ _ _ H1) as [Hop ->].
    destruct (slice_logits_ok _ _ _ _ H2) as [-> Hany].
    rewrite mask_where_length in *.
    exists (sliced logits (start_of n) (stop_of (List.length logits) m)).
    split.
    + now apply Hany.
    + rewrite threshold_logits_eq by exact Hop.
      now rewrite sliced_mask_where.
Qed.

Lemma slice_threshold_commute_witness :
  exists mid, threshold_logits demo_logits "<" f_1_0 = Ok mid
              /\ slice_logits mid (Some 2%Z) None
                 = Ok [neg_inf; neg_inf; f_1_1; neg_inf; neg_inf].
Proof.
  apply (proj1 (slice_threshold_commute demo_logits (Some 2%Z) None "<" f_1_0
                  [neg_inf; neg_inf; f_1_1; neg_inf; neg_inf])).
  exists [neg_inf; neg_inf; f_1_1; f_0_7; f_m1_0]. split; reflexivity.
Defined.

(** ** NaN and nested thresholds *)

(** X15. A comparison with NaN is false, so a threshold whose value is
    NaN returns the vector unchanged for every comparator, also when it
    is written [nan] in the text, and a NaN entry passes every
    threshold. *)
Theorem threshold_nan (logits : vector) (op : string) :
  In op comparators ->
  threshold_logits logits op S754_nan = Ok logits
  /\ interpret_dsl logits (join_fields ["threshold"; op; "nan"]) = Ok logits
  /\ forall p out i,
       threshold_logits logits op p = Ok out ->
       nth_error logits i = Some S754_nan ->
       nth_error out i = Some S754_nan.
Proof.
  intros Hop.
  assert (H : threshold_logits logits op S754_nan = Ok logits).
  { rewrite threshold_logits_eq by exact Hop. f_equal.
    rewrite <- (mask_where_never logits) at 2.
    apply mask_where_ext. intros v _. apply satisfies_nan. now right. }
  split; [exact H|]. split.
  - rewrite interpret_fields.
    + rewrite exec_parts_threshold. exact H.
    + discriminate.
    + repeat constructor. now apply comparator_is_token.
  - intros p out i Hout Hi.
    rewrite threshold_logits_eq in Hout by exact Hop. injection Hout as <-.
    rewrite mask_where_nth_error, Hi. simpl.
    rewrite satisfies_nan; [reflexivity | now left].
Qed.

Lemma threshold_nan_witness :
  threshold_logits demo_logits ">=" S754_nan = Ok demo_logits.
Proof.
  apply (proj1 (threshold_nan demo_logits ">=" ltac:(simpl; tauto))).
Defined.

Lemma flt_fle_trans v p q :
  flt v p = true -> fle p q = true -> flt v q = true.
Proof.
  unfold flt, fle, SFltb, SFleb.
  destruct v as [[]|[]| |[] mv ev], p as [[]|[]| |[] mp ep],
           q as [[]|[]| |[] mq eq];
    simpl; auto; try discriminate; intros H1 H2; cmp_cases; simpl in *;
    auto; try discriminate; try lia.
Qed.

Lemma fle_flt_trans q p v :
  fle q p = true -> flt p v = true -> flt q v = true.
Proof.
  unfold flt, fle, SFltb, SFleb.
  destruct v as [[]|[]| |[] mv ev], p as [[]|[]| |[] mp ep],
           q as [[]|[]| |[] mq eq];
    simpl; auto; try discriminate; intros H1 H2; cmp_cases; simpl in *;
    auto; try discriminate; try lia.
Qed.

(** X16. Nested thresholds: after [threshold < p], a [threshold < q] with
    [p <= q] gives what [threshold < q] gives alone, and after
    [threshold > p], a [threshold > q] with [q <= p] gives what
    [threshold > q] gives alone; the looser bound is redundant. *)
Theorem nested_thresholds (logits : vector) (p q : float) :
  (fle p q = true ->
   (mid <- threshold_logits logits "<" p ;; threshold_logits mid "<" q)
   = threshold_logits logits "<" q)
  /\ (fle q p = true ->
   (mid <- threshold_logits logits ">" p ;; threshold_logits mid ">" q)
   = threshold_logits logits ">" q).
Proof.
  split; intros Hpq.
  - rewrite !threshold_logits_eq by (simpl; tauto). cbn [bind].
    rewrite threshold_logits_eq by (simpl; tauto). f_equal.
    rewrite mask_where_twice. apply mask_where_ext. intros v _.
    change (flt v p || flt v q = flt v q).
    destruct (flt v p) eqn:Hv; [|reflexivity].
    simpl. symmetry. eapply flt_fle_trans; eassumption.
  - rewrite !threshold_logits_eq by (simpl; tauto). cbn [bind].
    rewrite threshold_logits_eq by (simpl; tauto). f_equal.
    rewrite mask_where_twice. apply mask_where_ext. intros v _.
    change (flt p v || flt q v = flt q v).
    destruct (flt p v) eqn:Hv; [|reflexivity].
    simpl. symmetry. eapply fle_flt_trans; eassumption.
Qed.

Lemma nested_thresholds_witness :
  (mid <- threshold_logits demo_logits "<" f_0_7 ;; threshold_logits mid "<" f_1_0)
  = threshold_logits demo_logits "<" f_1_0.
Proof.
  apply (proj1 (nested_thresholds demo_logits f_0_7 f_1_0)). reflexivity.
Defined.

(** ** Where a sort puts masked entries and NaN *)

Lemma all_equal_repeat (b : float) l :
  Forall (fun y => y = b) l -> l = repeat b (List.length l).
Proof. induction 1 as [|y l -> _ IH]; simpl; [reflexivity | now rewrite <- IH]. Qed.

Lemma descending_bottom b l :
  (forall x, np_le x b = true -> x = b) ->
  descending l ->
  exists front c, l = (front ++ repeat b c)%list /\ ~ In b front.
Proof.
  intros Hb. unfold descending.
  induction 1 as [|a l Hs (front & c & -> & Hfront) Hall].
  - exists [], 0%nat. auto.
  - destruct (float_eq_dec a b) as [-> | Hab].
    + exists [], (S (List.length (front ++ repeat b c))). split; [|auto].
      simpl. f_equal. apply all_equal_repeat.
      eapply Forall_impl; [|exact Hall]. intros y. apply Hb.
    + exists (a :: front), c. split; [reflexivity|].
      intros [Heq | Hin]; [now apply Hab | now apply Hfront].
Qed.

Lemma descending_top t l :
  (forall x, np_le t x = true -> x = t) ->
  descending l ->
  exists c back, l = (repeat t c ++ back)%list /\ ~ In t back.
Proof.
  intros Ht. unfold descending.
  induction 1 as [|a l Hs (c & back & -> & Hback) Hall].
  - exists 0%nat, []. auto.
  - destruct c as [|c].
    + simpl in *. destruct (float_eq_dec a t) as [-> | Hat].
      * exists 1%nat, back. auto.
      * exists 0%nat, (a :: back). split; [reflexivity|].
        intros [Heq | Hin]; [now apply Hat | now apply Hback].
    + assert (Ha : a = t).
      { apply Ht. rewrite Forall_forall in Hall. apply Hall. simpl. auto. }
      subst a. exists (S (S c)), back. auto.
Qed.

Lemma count_occ_split_end b (front : vector) c :
  ~ In b front ->
  count_occ float_eq_dec (front ++ repeat b c) b = c.
Proof.
  intros H. rewrite count_occ_app, count_occ_repeat_eq by reflexivity.
  apply (count_occ_not_In float_eq_dec) in H. lia.
Qed.

Lemma count_occ_split_start b c (back : vector) :
  ~ In b back ->
  count_occ float_eq_dec (repeat b c ++ back) b = c.
Proof.
  intros H. rewrite count_occ_app, count_occ_repeat_eq by reflexivity.
  apply (count_occ_not_In float_eq_dec) in H. lia.
Qed.

Lemma nan_is_top x : np_le S754_nan x = true -> x = S754_nan.
Proof. destruct x as [[]|[]| |[] m e]; simpl; intros H; try discriminate; auto. Qed.

Lemma rev_np_sort_count l x :
  count_occ float_eq_dec (rev (np_sort l)) x = count_occ float_eq_dec l x.
Proof.
  symmetry. revert x. apply Permutation_count_occ, rev_np_sort_perm.
Qed.

Lemma rev_eq_app_repeat (b : float) (a l : vector) c :
  rev l = (a ++ repeat b c)%list -> l = (repeat b c ++ rev a)%list.
Proof.
  intros H. rewrite <- (rev_involutive l), H, rev_app_distr.
  f_equal. apply rev_repeat.
Qed.

Lemma rev_eq_repeat_app (b : float) (a l : vector) c :
  rev l = (repeat b c ++ a)%list -> l = (rev a ++ repeat b c)%list.
Proof.
  intros H. rewrite <- (rev_involutive l), H, rev_app_distr.
  f_equal. apply rev_repeat.
Qed.

(** X17. A descending sort returns the unmasked entries followed by all
    the [-inf] entries, and an ascending sort the [-inf] entries
    followed by the others; NaN entries go to the opposite end: first
    in a descending sort, last in an ascending one. *)
Theorem sort_gathers_masked_and_nan (logits : vector) :
  let c := count_occ float_eq_dec logits neg_inf in
  let k := count_occ float_eq_dec logits S754_nan in
  (exists front, sort_logits logits "-" = Ok (front ++ full_neg_inf c)%list
                 /\ ~ In neg_inf front)
  /\ (exists back, sort_logits logits "+" = Ok (full_neg_inf c ++ back)%list
                   /\ ~ In neg_inf back)
  /\ (exists rest, sort_logits logits "-" = Ok (repeat S754_nan k ++ rest)%list
                   /\ ~ In S754_nan rest)
  /\ (exists rest, sort_logits logits "+" = Ok (rest ++ repeat S754_nan k)%list
                   /\ ~ In S754_nan rest).
Proof.
  cbv zeta. unfold full_neg_inf.
  change (sort_logits logits "-") with (Ok (rev (np_sort logits))).
  change (sort_logits logits "+") with (Ok (np_sort logits)).
  destruct (descending_bottom neg_inf _ np_le_neg_inf_inv
              (np_sort_descending logits)) as (front & c & Hf & Hfront).
  destruct (descending_top S754_nan _ nan_is_top
              (np_sort_descending logits)) as (k & rest & Hr & Hrest).
  assert (Hc : count_occ float_eq_dec logits neg_inf = c).
  { rewrite <- rev_np_sort_count, Hf. now apply count_occ_split_end. }
  assert (Hk : count_occ float_eq_dec logits S754_nan = k).
  { rewrite <- rev_np_sort_count, Hr. now apply count_occ_split_start. }
  rewrite Hc, Hk. split; [|split; [|split]].
  - exists front. now rewrite Hf.
  - exists (rev front). split.
    + f_equal. now apply rev_eq_app_repeat.
    + now rewrite <- in_rev.
  - exists rest. now rewrite Hr.
  - exists (rev rest). split.
    + f_equal. now apply rev_eq_repeat_app.
    + now rewrite <- in_rev.
Qed.

(** ** Whitespace around a line *)

Lemma parse_dsl_one_line s :
  has_char newline s = false ->
  parse_dsl s = if blank s then [] else [strip s].
Proof.
  intros Hn. unfold parse_dsl, blank.
  rewrite split_on_absent by exact Hn. simpl.
  now destruct (strip s =? EmptyString).
Qed.

Lemma split_fields_all_space s :
  all_space s = true -> split_fields s = (EmptyString, []).
Proof.
  induction s as [|c s IH]; simpl; [reflexivity|].
  intros H. apply andb_true_iff in H as [Hc Hs].
  now rewrite (IH Hs), Hc.
Qed.

Lemma split_ws_lstrip s : split_ws (lstrip s) = split_ws s.
Proof.
  induction s as [|c s IH]; [reflexivity|].
  cbn [lstrip]. destruct (isspace c) eqn:Hc; [|reflexivity].
  rewrite IH. unfold split_ws. cbn [split_fields].
  destruct (split_fields s) as [f fs]. now rewrite Hc.
Qed.

Lemma split_fields_rstrip s : split_fields (rstrip s) = split_fields s.
Proof.
  induction s as [|c s IH]; [reflexivity|].
  cbn [rstrip]. destruct (rstrip s) as [|y r] eqn:Hr.
  - apply rstrip_empty_all_space in Hr.
    cbn [split_fields]. rewrite (split_fields_all_space s Hr).
    destruct (isspace c) eqn:Hc; cbn [split_fields]; now rewrite ?Hc.
  - cbn [split_fields] in *. now rewrite IH.
Qed.

Lemma split_ws_strip s : split_ws (strip s) = split_ws s.
Proof.
  unfold strip. rewrite <- (split_ws_lstrip s).
  unfold split_ws. now rewrite split_fields_rstrip.
Qed.

Lemma split_ws_blank s : split_ws s = [] <-> blank s = true.
Proof.
  rewrite blank_all_space. split.
  - induction s as [|c s IH]; [reflexivity|].
    unfold split_ws in *. cbn [split_fields all_space].
    destruct (split_fields s) as [f fs].
    destruct (isspace c) eqn:Hc; [|discriminate].
    cbn [push_field]. intros H. now rewrite IH.
  - intros H. unfold split_ws. now rewrite split_fields_all_space.
Qed.

(** What one line of a text contributes to the run. *)
Lemma run_line logits s :
  has_char newline s = false ->
  run_commands logits (parse_dsl s)
  = match split_ws s with
    | [] => Ok logits
    | parts => exec_parts logits parts
    end.
Proof.
  intros Hn. rewrite parse_dsl_one_line by exact Hn.
  destruct (blank s) eqn:Hb.
  - apply split_ws_blank in Hb. now rewrite Hb.
  - cbn [run_commands]. rewrite bind_ok. unfold exec_command.
    rewrite split_ws_strip. destruct (split_ws s) eqn:Hs; [|reflexivity].
    apply split_ws_blank in Hs. congruence.
Qed.

(** X18. Only the fields of each line count: two lists of lines (without
    newlines) whose lines split into the same fields are interpreted
    alike, so indentation, trailing whitespace and the amount or kind of
    whitespace between fields are ignored. *)
Theorem line_whitespace_ignored (lines lines' : list string) :
  (forall l, In l lines -> has_char newline l = false) ->
  (forall l, In l lines' -> has_char newline l = false) ->
  map split_ws lines = map split_ws lines' ->
  forall logits,
    interpret_dsl logits (join_lines lines)
    = interpret_dsl logits (join_lines lines').
Proof.
  unfold interpret_dsl. intros Hn Hn' Heq logits. rewrite !parse_dsl_join.
  revert lines' Hn' Heq logits.
  induction lines as [|l ls IH]; intros [|l' ls'] Hn' Heq logits;
    try discriminate; [reflexivity|].
  injection Heq as Hl Hls. cbn [map List.concat].
  rewrite !run_commands_app.
  rewrite (run_line logits l) by (apply Hn; simpl; auto).
  rewrite (run_line logits l') by (apply Hn'; simpl; auto).
  rewrite Hl.
  assert (Hrest : forall v,
            run_commands v (List.concat (map parse_dsl ls))
            = run_commands v (List.concat (map parse_dsl ls'))).
  { intros v. apply IH; [|intros; apply Hn'; simpl|]; auto.
    intros; apply Hn; simpl; auto. }
  destruct (split_ws l') as [|cmd args]; cbn [bind]; [apply Hrest|].
  destruct (exec_parts logits (cmd :: args)); cbn [bind]; [apply Hrest | reflexivity].
Qed.

Lemma line_whitespace_ignored_witness :
  interpret_dsl demo_logits (join_lines ["  sort -"; "slice   :3   "])
  = interpret_dsl demo_logits (join_lines ["sort    -  "; "   slice :3"]).
Proof.
  apply (line_whitespace_ignored ["  sort -"; "slice   :3   "]
           ["sort    -  "; "   slice :3"]).
  - intros l [<- | [<- | []]]; reflexivity.
  - intros l [<- | [<- | []]]; reflexivity.
  - reflexivity.
Defined.

(** ** The result of a sort is determined by the values *)

Lemma np_le_unsigned_zero a b :
  np_le (unsigned_zero a) (unsigned_zero b) = np_le a b.
Proof. destruct a as [[]|[]| |[] ma ea], b as [[]|[]| |[] mb eb]; reflexivity. Qed.

Lemma np_le_antisym a b :
  np_le a b = true -> np_le b a = true -> unsigned_zero a = unsigned_zero b.
Proof.
  unfold np_le, np_lt, SFltb.
  destruct a as [[]|[]| |[] ma ea], b as [[]|[]| |[] mb eb]; simpl;
    try discriminate; auto; intros H1 H2; cmp_cases; simpl in *;
    try discriminate; try lia; auto.
Qed.

Lemma np_le_refl a : np_le a a = true.
Proof. destruct (np_le_total a a); assumption. Qed.

Lemma unsigned_zero_idem x : unsigned_zero (unsigned_zero x) = unsigned_zero x.
Proof. now destruct x. Qed.

Lemma ascending_map_unsigned_zero l : ascending l -> ascending (map unsigned_zero l).
Proof.
  unfold ascending. induction 1 as [|a l Hs IH Hall]; simpl; constructor; auto.
  apply Forall_map. eapply Forall_impl; [|exact Hall].
  intros b Hb. now rewrite np_le_unsigned_zero.
Qed.

(** Two sorted lists of the same values, none of them [-0.0], are equal. *)
Lemma sorted_perm_unique (l1 : vector) : forall l2,
  Forall (fun x => unsigned_zero x = x) l1 ->
  ascending l1 -> ascending l2 -> Permutation l1 l2 -> l1 = l2.
Proof.
  unfold ascending.
  induction l1 as [|a l1 IH]; intros l2 Hc H1 H2 Hp.
  - apply Permutation_nil in Hp. now subst.
  - destruct l2 as [|b l2]; [now apply Permutation_sym, Permutation_nil in Hp|].
    assert (Hc2 : Forall (fun x => unsigned_zero x = x) (b :: l2))
      by (eapply Permutation_Forall; eassumption).
    apply StronglySorted_inv in H1 as [H1 Ha].
    apply StronglySorted_inv in H2 as [H2 Hb].
    rewrite Forall_forall in Ha, Hb.
    assert (Hab : np_le a b = true).
    { assert (Hin : In b (a :: l1))
        by (eapply Permutation_in; [apply Permutation_sym, Hp | simpl; auto]).
      destruct Hin as [<- | Hin]; [apply np_le_refl | now apply Ha]. }
    assert (Hba : np_le b a = true).
    { assert (Hin : In a (b :: l2))
        by (eapply Permutation_in; [apply Hp | simpl; auto]).
      destruct Hin as [<- | Hin]; [apply np_le_refl | now apply Hb]. }
    pose proof (np_le_antisym a b Hab Hba) as Heq.
    inversion Hc as [|? ? Hca Hcl1]; subst.
    inversion Hc2 as [|? ? Hcb Hcl2]; subst.
    rewrite Hca, Hcb in Heq. subst b. f_equal.
    apply IH; try assumption.
    eapply Permutation_cons_inv, Hp.
Qed.

Lemma ascending_unique (l1 l2 : vector) :
  ascending l1 -> ascending l2 -> Permutation l1 l2 ->
  map unsigned_zero l1 = map unsigned_zero l2.
Proof.
  intros H1 H2 Hp. apply sorted_perm_unique.
  - apply Forall_map, Forall_forall. intros x _. apply unsigned_zero_idem.
  - now apply ascending_map_unsigned_zero.
  - now apply ascending_map_unsigned_zero.
  - now apply Permutation_map.
Qed.

(** X19. The result of a sort is fixed by the values of the input, up to
    the sign of zeros: any ascending arrangement of the input equals the
    result of [sort +], two vectors with the same values sort alike,
    and a sort makes an earlier sort irrelevant. *)
Theorem sort_determined (logits : vector) :
  (forall out, Permutation logits out -> ascending out ->
     map unsigned_zero out = map unsigned_zero (np_sort logits))
  /\ (forall other order out out',
        Permutation logits other ->
        sort_logits logits order = Ok out ->
        sort_logits other order = Ok out' ->
        map unsigned_zero out = map unsigned_zero out')
  /\ (forall first order mid out out',
        sort_logits logits first = Ok mid ->
        sort_logits mid order = Ok out ->
        sort_logits logits order = Ok out' ->
        map unsigned_zero out = map unsigned_zero out').
Proof.
  assert (Hperm : forall a b order out out',
            Permutation a b ->
            sort_logits a order = Ok out -> sort_logits b order = Ok out' ->
            map unsigned_zero out = map unsigned_zero out').
  { intros a b order out out' Hp. unfold sort_logits.
    assert (Hs : map unsigned_zero (np_sort a) = map unsigned_zero (np_sort b)).
    { apply ascending_unique; try apply np_sort_ascending.
      rewrite <- (np_sort_perm a), <- (np_sort_perm b). exact Hp. }
    destruct (order =? "-").
    - intros H H'. injection H as <-. injection H' as <-.
      now rewrite !map_rev, Hs.
    - destruct (order =? "+"); [|discriminate].
      intros H H'. injection H as <-. injection H' as <-. exact Hs. }
  split; [|split].
  - intros out Hp Ha. apply ascending_unique; [exact Ha | apply np_sort_ascending|].
    rewrite <- Hp. apply np_sort_perm.
  - intros other order out out'. apply Hperm.
  - intros first order mid out out' Hmid Hout Hout'.
    apply (Hperm mid logits order); [|assumption|assumption].
    unfold sort_logits in Hmid.
    destruct (first =? "-"); [injection Hmid as <-; symmetry; apply rev_np_sort_perm|].
    destruct (first =? "+"); [injection Hmid as <-; symmetry; apply np_sort_perm|].
    discriminate.
Qed.

Lemma sort_determined_witness :
  map unsigned_zero [f_m1_0; f_0_1; f_0_7; f_1_1; f_2_3]
  = map unsigned_zero [f_m1_0; f_0_1; f_0_7; f_1_1; f_2_3].
Proof.
  apply (proj2 (proj2 (sort_determined demo_logits)) "-" "+"
           [f_2_3; f_1_1; f_0_7; f_0_1; f_m1_0]);
    reflexivity.
Defined.

(** ** Failure depends on the text and the length only *)

Lemma exec_parts_same_outcome a b parts :
  List.length a = List.length b ->
  same_outcome (exec_parts a parts) (exec_parts b parts).
Proof.
  intros Hlen. unfold exec_parts. destruct parts as [|cmd args]; [reflexivity|].
  destruct (cmd =? "sort").
  { unfold sort_logits.
    destruct (_ =? "-"); [simpl; now rewrite !length_rev, !np_sort_length|].
    destruct (_ =? "+"); [simpl; now rewrite !np_sort_length | reflexivity]. }
  destruct (cmd =? "slice").
  { destruct args as [|arg args]; [reflexivity|].
    destruct (split_on ":" arg) as [|n [|m [|? ?]]]; try reflexivity.
    destruct (optional_int n) as [n'|]; [cbn [bind] | reflexivity].
    destruct (optional_int m) as [m'|]; [cbn [bind] | reflexivity].
    rewrite !slice_logits_eq. cbv zeta. rewrite Hlen.
    destruct (_ || _ || _)%bool; [reflexivity|].
    simpl. now rewrite !sliced_length. }
  destruct (cmd =? "threshold"); [|reflexivity].
  destruct args as [|op [|value args]]; try reflexivity.
  destruct (float_literal value) as [p|]; [cbn [bind] | reflexivity].
  destruct (in_dec string_dec op comparators) as [Hop | Hop].
  - rewrite !threshold_logits_eq by exact Hop. simpl.
    now rewrite !mask_where_length.
  - now rewrite !threshold_logits_invalid by exact Hop.
Qed.

Lemma run_commands_same_outcome commands : forall a b,
  List.length a = List.length b ->
  same_outcome (run_commands a commands) (run_commands b commands).
Proof.
  induction commands as [|c cs IH]; intros a b Hlen; [exact Hlen|].
  cbn [run_commands].
  pose proof (exec_parts_same_outcome a b (split_ws c) Hlen) as H.
  unfold exec_command.
  destruct (exec_parts a (split_ws c)), (exec_parts b (split_ws c));
    simpl in H; try contradiction; cbn [bind]; [now apply IH | exact H].
Qed.

(** X20. Whether a program fails, and with which exception, depends only
    on its text and on the length of the vector, not on the values: on
    two vectors of the same length the runs both fail with the same
    exception or both succeed. *)
Theorem failure_depends_on_length (logits logits' : vector) (text : string) :
  List.length logits = List.length logits' ->
  (forall e, interpret_dsl logits text = Raise e
             <-> interpret_dsl logits' text = Raise e)
  /\ ((exists out, interpret_dsl logits text = Ok out)
      <-> (exists out, interpret_dsl logits' text = Ok out)).
Proof.
  intros Hlen. unfold interpret_dsl.
  pose proof (run_commands_same_outcome (parse_dsl text) _ _ Hlen) as H.
  destruct (run_commands logits (parse_dsl text)) as [out|e],
           (run_commands logits' (parse_dsl text)) as [out'|e'];
    simpl in H; try contradiction.
  - split; [intros e; split; discriminate|]. split; eauto.
  - subst e'. split; [reflexivity|].
    split; intros [out H]; discriminate.
Qed.

Lemma failure_depends_on_length_witness :
  interpret_dsl [f_1_0; f_1_0; f_1_0; f_1_0; f_1_0]
    ("sort" ++ nl ++ "slice 2:9")
  = Raise (InvalidSliceRange 2 9 5).
Proof.
  apply (proj1 (failure_depends_on_length demo_logits
                  [f_1_0; f_1_0; f_1_0; f_1_0; f_1_0]
                  ("sort" ++ nl ++ "slice 2:9") eq_refl)).
  reflexivity.
Defined.

(** ** Unknown commands *)

(** X21. A line raises the unknown-command error exactly when its first
    field is not [sort], [slice] or [threshold] (the match is exact:
    another case or a longer word is unknown); the error names that
    field and no vector is needed to tell. *)
Theorem unknown_command_iff (logits : vector) (line cmd : string) :
  exec_command logits line = Raise (UnknownCommand cmd)
  <-> exists args, split_ws line = cmd :: args
                   /\ cmd <> "sort" /\ cmd <> "slice" /\ cmd <> "threshold".
Proof.
  unfold exec_command, exec_parts. split.
  - destruct (split_ws line) as [|c args]; [discriminate|].
    destruct (String.eqb_spec c "sort") as [-> | Hsort].
    { unfold sort_logits.
      destruct (_ =? "-"); [discriminate|]. destruct (_ =? "+"); discriminate. }
    destruct (String.eqb_spec c "slice") as [-> | Hslice].
    { destruct args as [|arg args]; [discriminate|].
      destruct (split_on ":" arg) as [|n [|m [|? ?]]]; try discriminate.
      destruct (optional_int n) as [n'|] eqn:Hn; cbn [bind].
      - destruct (optional_int m) as [m'|] eqn:Hm; cbn [bind].
        + rewrite slice_logits_eq. cbv zeta.
          destruct (_ || _ || _)%bool; discriminate.
        + unfold optional_int, int_literal in Hm.
          destruct m; [discriminate|]. destruct (py_int _); [discriminate|].
          cbn [bind] in Hm. injection Hm as <-. discriminate.
      - unfold optional_int, int_literal in Hn.
        destruct n; [discriminate|]. destruct (py_int _); [discriminate|].
        cbn [bind] in Hn. injection Hn as <-. discriminate. }
    destruct (String.eqb_spec c "threshold") as [-> | Hthreshold].
    { destruct args as [|op [|value args]]; try discriminate.
      unfold float_literal. destruct (py_float value); cbn [bind]; [|discriminate].
      destruct (in_dec string_dec op comparators) as [Hop | Hop].
      - rewrite threshold_logits_eq by exact Hop. discriminate.
      - rewrite threshold_logits_invalid by exact Hop. discriminate. }
    intros H. injection H as <-. exists args. auto.
  - intros (args & -> & Hsort & Hslice & Hthreshold).
    apply String.eqb_neq in Hsort, Hslice, Hthreshold.
    now rewrite Hsort, Hslice, Hthreshold.
Qed.

Lemma unknown_command_iff_witness :
  exec_command demo_logits "theshold < 1" = Raise (UnknownCommand "theshold").
Proof.
  apply (proj2 (unknown_command_iff demo_logits "theshold < 1" "theshold")).
  exists ["<"; "1"]. repeat split; discriminate.
Defined.

(** ** The notebook's recipe [sort -], [slice k:] *)

Lemma slice_from_line logits k :
  interpret_dsl logits
    (join_fields ["slice"; str_of_nat k ++ String ":" EmptyString])
  = slice_logits logits (Some (Z.of_nat k)) None.
Proof.
  rewrite interpret_fields.
  - unfold exec_parts. simpl String.eqb. cbv iota.
    rewrite split_on_app, split_on_absent by apply str_of_nat_no_colon.
    cbn [app split_on]. now rewrite optional_int_str_of_nat.
  - discriminate.
  - repeat constructor. apply is_token_app; [apply str_of_nat_token | reflexivity].
Qed.

Lemma slice_from logits k :
  (k < List.length logits)%nat ->
  slice_logits logits (Some (Z.of_nat k)) None
  = Ok (full_neg_inf k ++ skipn k logits)%list.
Proof.
  intros Hk. rewrite slice_logits_eq. cbv zeta. unfold start_of, stop_of.
  replace ((Z.of_nat k <? 0)
           || (Z.of_nat (List.length logits) >? Z.of_nat (List.length logits))
           || (Z.of_nat k >=? Z.of_nat (List.length logits)))%Z
    with false by (symmetry; lia).
  rewrite sliced_window by lia.
  rewrite Nat.sub_diag. unfold full_neg_inf at 2. simpl. rewrite app_nil_r.
  now rewrite firstn_all2 by (rewrite length_skipn; lia).
Qed.

(** X22. The program [sort -], [slice k:], which the notebook's text
    gives as top-k, masks the [k] largest values and keeps the others:
    for [k < N] it returns [k] entries [-inf] followed by the [N - k]
    smallest input values in descending order. *)
Theorem sort_then_slice_from (logits : vector) (k : nat) :
  (k < List.length logits)%nat ->
  exists top rest,
    interpret_dsl logits
      ("sort -" ++ nl
       ++ join_fields ["slice"; str_of_nat k ++ String ":" EmptyString])
    = Ok (full_neg_inf k ++ rest)%list
    /\ List.length top = k
    /\ Permutation logits (top ++ rest)%list
    /\ descending rest
    /\ (forall x y, In x top -> In y rest -> np_le y x = true).
Proof.
  intros Hk.
  set (sorted := rev (np_sort logits)).
  assert (Hlen : List.length sorted = List.length logits).
  { unfold sorted. now rewrite length_rev, np_sort_length. }
  exists (firstn k sorted), (skipn k sorted).
  pose proof (np_sort_descending logits) as Hd. fold sorted in Hd.
  unfold descending in Hd. rewrite <- (firstn_skipn k sorted) in Hd.
  pose proof (StronglySorted_app_inv _ _ _ Hd) as [_ Hrest].
  assert (Htail : descending (skipn k sorted)).
  { unfold descending. clear Hrest. revert Hd.
    generalize (skipn k sorted). induction (firstn k sorted) as [|a l IH];
      intros tail Hd; [exact Hd|].
    apply IH. now apply StronglySorted_inv in Hd as [Hd _]. }
  split; [|split; [|split; [|split]]].
  - rewrite interpret_dsl_app.
    change (interpret_dsl logits "sort -") with (Ok sorted). cbn [bind].
    rewrite slice_from_line. now apply slice_from; rewrite Hlen.
  - rewrite length_firstn. lia.
  - rewrite firstn_skipn. apply rev_np_sort_perm.
  - exact Htail.
  - exact Hrest.
Qed.

Lemma sort_then_slice_from_witness :
  exists top rest,
    interpret_dsl demo_logits
      ("sort -" ++ nl
       ++ join_fields ["slice"; str_of_nat 3 ++ String ":" EmptyString])
    = Ok (full_neg_inf 3 ++ rest)%list
    /\ List.length top = 3%nat
    /\ Permutation demo_logits (top ++ rest)%list
    /\ descending rest
    /\ (forall x y, In x top -> In y rest -> np_le y x = true).
Proof.
  apply (sort_then_slice_from demo_logits 3). simpl. lia.
Defined.
